(** * virtualmouse: the key-state-to-motion engine of [main.cpp]

    A shallow embedding of the keypad-to-pointer engine: the acceleration
    curve [moveStep], the per-direction state kept in the globals
    [isMoving] / [moveTimes] / [numlockOn], the event handlers of the
    dispatch loop and the periodic emitter [moveMouse].

    Conventions.
    - A C [int] is a [Z]; the only place where the source can leave the
      [int] range is [moveTimes[i]++] (a [std::atomic_int], whose
      increment wraps in two's complement), written out with [wrap_int].
    - The arrays [isMoving], [moveTimes] and [steps] have
      [DIRECTION_NUM = 4] cells and are lists read with [!!!] and written
      with [<[i:=v]>]; every access of the source is in range.
    - [ENSURE] calls [err(EXIT_FAILURE, ...)], which ends the process: it
      is the [Fatal] result of the error monad [outcome].
    - [double] arithmetic is IEEE 754 binary64 with round-to-nearest-even,
      taken from the executable specification [SpecFloat]. *)

From Stdlib Require Import ZArith Bool Lia QArith.
From Stdlib Require Import Floats.SpecFloat.
From stdpp Require Import base option list strings.

Local Open Scope Z_scope.

(** ** Machine integers and doubles *)

Definition INT_MIN : Z := - 2 ^ 31.
Definition INT_MAX : Z := 2 ^ 31 - 1.

Definition int_range (x : Z) : Prop := INT_MIN <= x <= INT_MAX.

(** Two's-complement wrap-around of a 32-bit [int]. *)
Definition wrap_int (x : Z) : Z := (x + 2 ^ 31) mod 2 ^ 32 - 2 ^ 31.

(** Conversion of an [int] to the 64-bit [size_t] of an LP64 target, as in
    the comparison [ret == sizeof(ev)]. *)
Definition SIZE_BITS : Z := 64.
Definition int_to_size_t (x : Z) : Z := x mod 2 ^ SIZE_BITS.

(** [int] to [bool] conversion, and the value of [!x]. *)
Definition int_to_bool (x : Z) : bool := negb (x =? 0).

Module Double.

Definition prec : Z := 53.
Definition emax : Z := 1024.

Definition double : Type := spec_float.

(** Integral promotion [int -> double]; exact on the whole [int] range. *)
Definition of_int (n : Z) : double := binary_normalize prec emax n 0 false.

Definition add : double -> double -> double := SFadd prec emax.
Definition mul : double -> double -> double := SFmul prec emax.
Definition div : double -> double -> double := SFdiv prec emax.

(** The integer part of a finite double, rounded toward zero. *)
Definition trunc (x : double) : option Z :=
  match x with
  | S754_zero _ => Some 0
  | S754_finite s m e =>
      let a := if 0 <=? e then Z.shiftl (Z.pos m) e
               else Z.shiftr (Z.pos m) (- e) in
      Some (if s then - a else a)
  | S754_infinity _ | S754_nan => None
  end.

(** Conversion [double -> int] of a [return] statement: truncation
    toward zero.  Outside the [int] range (and on NaN) C++ leaves the
    result undefined; the value chosen here is the one [cvttsd2si]
    produces.  [moveStep] never reaches that case
    ([moveStep_conversion_defined] below). *)
Definition to_int (x : double) : Z :=
  match trunc x with
  | Some z => if (INT_MIN <=? z) && (z <=? INT_MAX) then z else INT_MIN
  | None => INT_MIN
  end.

End Double.

(** ** The acceleration curve *)

Definition MIN_STEP : Z := 1.
Definition MAX_STEP : Z := 10.
Definition MIN_POINT : Z := 50.
Definition MAX_POINT : Z := 200.

(** The value of the [double] expression in the middle branch of
    [moveStep], before it is converted to the [int] result:
    [MIN_STEP + (times - MIN_POINT) * 1.0 / (MAX_POINT - MIN_POINT)
              * (MAX_STEP - MIN_STEP)]. *)
Definition moveStep_linear (times : Z) : Double.double :=
  Double.add (Double.of_int MIN_STEP)
    (Double.mul
       (Double.div
          (Double.mul (Double.of_int (times - MIN_POINT)) (Double.of_int 1))
          (Double.of_int (MAX_POINT - MIN_POINT)))
       (Double.of_int (MAX_STEP - MIN_STEP))).

Definition moveStep (times : Z) : Z :=
  if times <=? MIN_POINT then MIN_STEP
  else if times <=? MAX_POINT then Double.to_int (moveStep_linear times)
  else MAX_STEP.

(** The curve as the specification words it, over exact rationals: the
    linear regime is [MIN_STEP + (t-MIN_POINT)/(MAX_POINT-MIN_POINT) *
    (MAX_STEP-MIN_STEP)], truncated to an integer. *)
Definition Qtrunc (q : Q) : Z := Z.quot (Qnum q) (Z.pos (Qden q)).

Definition step_spec (ticks : Z) : Z :=
  if ticks <=? MIN_POINT then MIN_STEP
  else if ticks <=? MAX_POINT then
    Qtrunc (inject_Z MIN_STEP
            + inject_Z (ticks - MIN_POINT) / inject_Z (MAX_POINT - MIN_POINT)
              * inject_Z (MAX_STEP - MIN_STEP))%Q
  else MAX_STEP.

(** ** Kernel interface

    Event types and codes of [<linux/input-event-codes.h>], and the size
    of [struct input_event] on an LP64 target (a 16-byte [struct timeval],
    two [__u16] and one [__s32]). *)

Definition EV_SYN : Z := 0.
Definition EV_KEY : Z := 1.
Definition EV_REL : Z := 2.
Definition EV_LED : Z := 17.
Definition SYN_REPORT : Z := 0.
Definition REL_X : Z := 0.
Definition REL_Y : Z := 1.
Definition KEY_KP8 : Z := 72.
Definition KEY_KP4 : Z := 75.
Definition KEY_KP6 : Z := 77.
Definition KEY_KP2 : Z := 80.
Definition LED_NUML : Z := 0.

Definition sizeof_input_event : Z := 24.

(** [struct input_event] without its time stamp, which the program never
    reads and always writes as zero. *)
Record input_event : Type := InputEvent {
  ev_type : Z;
  ev_code : Z;
  ev_value : Z
}.

(** ** Fatal errors *)

Inductive outcome (A : Type) : Type :=
| Done (a : A)
| Fatal (line : Z).
Arguments Done {A} a.
Arguments Fatal {A} line.

#[global] Instance outcome_ret : MRet outcome := @Done.
#[global] Instance outcome_bind : MBind outcome :=
  fun A B f m => match m with Done a => f a | Fatal l => Fatal l end.

(** [ENSURE(CONDITION)] at the given line of [main.cpp]. *)
Definition ENSURE (condition : bool) (line : Z) : outcome unit :=
  if condition then Done tt else Fatal line.

(** ** Arrays *)

(** [arr[index]] and [arr[index] = v]. *)
Definition array_get {A} `{Inhabited A} (arr : list A) (index : Z) : A :=
  arr !!! Z.to_nat index.
Definition array_set {A} (arr : list A) (index : Z) (v : A) : list A :=
  <[Z.to_nat index := v]> arr.

(** ** Global state *)

Definition UP : Z := 0.
Definition DOWN : Z := 1.
Definition LEFT : Z := 2.
Definition RIGHT : Z := 3.
Definition DIRECTION_NUM : Z := 4.

(** The index range of [for (int i = 0; i < DIRECTION_NUM; i++)]. *)
Definition directions : list Z := seqZ 0 DIRECTION_NUM.

Record globals : Type := Globals {
  numlockOn : bool;
  isMoving : list bool;
  moveTimes : list Z
}.

Definition set_numlockOn (b : bool) (g : globals) : globals :=
  Globals b (isMoving g) (moveTimes g).
Definition set_isMoving (index : Z) (b : bool) (g : globals) : globals :=
  Globals (numlockOn g) (array_set (isMoving g) index b) (moveTimes g).
Definition set_moveTimes (index : Z) (t : Z) (g : globals) : globals :=
  Globals (numlockOn g) (isMoving g) (array_set (moveTimes g) index t).

(** Both arrays have their [DIRECTION_NUM] cells. *)
Definition wf_globals (g : globals) : Prop :=
  length (isMoving g) = Z.to_nat DIRECTION_NUM /\
  length (moveTimes g) = Z.to_nat DIRECTION_NUM.

(** The static initialisers: [numlockOn = false], [isMoving = { false }]
    and the zero-initialised [moveTimes]. *)
Definition static_globals : globals :=
  Globals false (replicate (Z.to_nat DIRECTION_NUM) false)
                (replicate (Z.to_nat DIRECTION_NUM) 0).

Definition resetMoveTimes (g : globals) : globals :=
  foldl (fun g i => set_moveTimes i 0 g) g directions.

(** The state in which [main] enters its dispatch loop: [numlockOn] holds
    the answer of [queryNumlock()], and [resetMoveTimes()] has run. *)
Definition engine_start (queryNumlock : bool) : globals :=
  resetMoveTimes (set_numlockOn queryNumlock static_globals).

(** ** Dispatch path *)

Definition setIsMoving (index value : Z) (g : globals) : globals :=
  let g := set_isMoving index (int_to_bool value) g in
  if negb (int_to_bool value) then set_moveTimes index 0 g else g.

Definition keyAction (index value : Z) (g : globals) : outcome globals :=
  ENSURE ((0 <=? index) && (index <? DIRECTION_NUM)) 268 ;;
  if value =? 1 then mret (setIsMoving index 1 g)
  else if value =? 0 then mret (setIsMoving index 0 g)
  else mret g.

Definition handleKeyEvent (ev : input_event) (g : globals) : outcome globals :=
  if numlockOn g then mret g
  else
    let index :=
      if ev_code ev =? KEY_KP8 then UP
      else if ev_code ev =? KEY_KP2 then DOWN
      else if ev_code ev =? KEY_KP4 then LEFT
      else if ev_code ev =? KEY_KP6 then RIGHT
      else -1 in
    if negb (index =? -1) then keyAction index (ev_value ev) g
    else mret g.

Definition handleLEDEvent (ev : input_event) (g : globals) : globals :=
  if ev_code ev =? LED_NUML then
    if ev_value ev =? 0 then set_numlockOn false g
    else if ev_value ev =? 1 then
      foldl (fun g i => setIsMoving i 0 g) (set_numlockOn true g) directions
    else g
  else g.

Definition handleEvent (ev : input_event) (g : globals) : outcome globals :=
  if ev_type ev =? EV_KEY then handleKeyEvent ev g
  else if ev_type ev =? EV_LED then mret (handleLEDEvent ev g)
  else mret g.

(** ** Tick path *)

Definition incMoveTimes (g : globals) : globals :=
  foldl (fun g i =>
           if array_get (isMoving g) i
           then set_moveTimes i (wrap_int (array_get (moveTimes g) i + 1)) g
           else g)
        g directions.

Definition calcMoveSteps (g : globals) (steps : list Z) : list Z :=
  let steps :=
    foldl (fun steps i =>
             if array_get (isMoving g) i
             then array_set steps i (moveStep (array_get (moveTimes g) i))
             else steps)
          steps directions in
  let steps :=
    if array_get (isMoving g) UP && array_get (isMoving g) DOWN
    then array_set (array_set steps UP 0) DOWN 0 else steps in
  if array_get (isMoving g) LEFT && array_get (isMoving g) RIGHT
  then array_set (array_set steps LEFT 0) RIGHT 0 else steps.

(** [sizeof(ev)] for the buffer [struct input_event ev[3]] of
    [writeDevice], and the test [ret == sizeof(ev)] on the [int] result of
    [write], compared as [size_t]. *)
Definition sizeof_ev : Z := 3 * sizeof_input_event.

Definition full_write (ret : Z) : bool := int_to_size_t ret =? sizeof_ev.

(** The three records [writeDevice] fills in. *)
Definition motion_report (steps : list Z) : list input_event :=
  let x := array_get steps RIGHT - array_get steps LEFT in
  let y := array_get steps DOWN - array_get steps UP in
  [InputEvent EV_REL REL_X x; InputEvent EV_REL REL_Y y;
   InputEvent EV_SYN SYN_REPORT 0].

(** [writeDevice]: one [write] of the three records; [ret] is what the
    kernel returns for it.  The result pairs the buffer handed to [write]
    with the outcome of the [ENSURE] that follows. *)
Definition writeDevice (steps : list Z) (ret : Z)
  : list input_event * outcome unit :=
  let ev := motion_report steps in
  (ev, ENSURE (full_write ret) 436).

Definition moveMouse (ret : Z) (g : globals)
  : list input_event * outcome globals :=
  let g := incMoveTimes g in
  let steps := calcMoveSteps g (replicate (Z.to_nat DIRECTION_NUM) 0) in
  let '(ev, r) := writeDevice steps ret in
  (ev, r ;; mret g).

(** ** Undivided runs

    One input is either one record read by the dispatch loop or one
    iteration of [moveMouseThread] (with the kernel's answer to its
    [write]).  A run returns the buffers written to the virtual pointer,
    in order, and ends at the first fatal error.  In a run every record
    and every tick is taken as a whole: no record is handled in the
    middle of a tick.  The two threads of the program are not
    synchronised, so these are some of its executions, not all of them;
    the others are those of [Interleaved.exec] and [reachable] below. *)

Inductive input : Type :=
| KeyboardEvent (ev : input_event)
| TimerTick (ret : Z).

Fixpoint run (inputs : list input) (g : globals)
  : list (list input_event) * outcome globals :=
  match inputs with
  | [] => ([], Done g)
  | KeyboardEvent ev :: rest =>
      match handleEvent ev g with
      | Done g' => run rest g'
      | Fatal l => ([], Fatal l)
      end
  | TimerTick ret :: rest =>
      match moveMouse ret g with
      | (ev, Done g') => let '(written, o) := run rest g' in (ev :: written, o)
      | (ev, Fatal l) => ([ev], Fatal l)
      end
  end.

(** ** Predicates used in the statements *)

(** What is checked, value by value, on the linear regime: the [double]
    result converts to an [int] without leaving its range, and the
    [int] is the truncation of the exact rational value. *)
Definition linear_regime_ok (t : Z) : bool :=
  match Double.trunc (moveStep_linear t) with
  | Some z =>
      (INT_MIN <=? z) && (z <=? INT_MAX)
      && (z =? MIN_STEP + (MAX_STEP - MIN_STEP) * (t - MIN_POINT)
                            / (MAX_POINT - MIN_POINT))
      && (z =? step_spec t)
  | None => false
  end.

(** All four directions are inactive with a hold count of 0. *)
Definition neutral (g : globals) : Prop :=
  forall i, 0 <= i < DIRECTION_NUM ->
    array_get (isMoving g) i = false /\ array_get (moveTimes g) i = 0.

(** A direction that is not moving has a hold count of 0, and while
    [numlockOn] is set no direction is moving. *)
Definition engine_invariant (g : globals) : Prop :=
  wf_globals g
  /\ (forall i, 0 <= i < DIRECTION_NUM ->
        array_get (isMoving g) i = false -> array_get (moveTimes g) i = 0)
  /\ (numlockOn g = true ->
      forall i, 0 <= i < DIRECTION_NUM -> array_get (isMoving g) i = false).

(** The reset law as the specification words it: whenever the flag
    changes value, the hold count is 0 afterwards. *)
Definition resets_on_change (g : globals) (index value : Z) : Prop :=
  array_get (isMoving g) index <> int_to_bool value ->
  array_get (moveTimes (setIsMoving index value g)) index = 0.

(** The LED rule as the specification words it: a NumLock LED event sets
    the gate to [value != 0]. *)
Definition led_sets_gate_to_nonzero (ev : input_event) (g : globals) : Prop :=
  ev_type ev = EV_LED -> ev_code ev = LED_NUML ->
  exists g', handleEvent ev g = Done g' /\
             numlockOn g' = int_to_bool (ev_value ev).

(** ** The tick path, access by access

    [moveMouseThread] and the dispatch loop run as two threads over the
    same globals, without a lock and without a copy: [incMoveTimes] and
    [calcMoveSteps] read [isMoving[i]] and [moveTimes[i]] in place, one
    cell at a time.  [tick A] is a tick-side computation cut at those
    accesses; [exec] runs it against a schedule that says which records
    the dispatch loop handles before each access.  Every access is one
    indivisible step and [handleEvent] is run as a whole between two
    accesses, so the executions of [exec] are among those of the two
    threads. *)

Module Interleaved.

Inductive tick (A : Type) : Type :=
| Ret (a : A)
| LoadIsMoving (i : Z) (k : bool -> tick A)
| LoadMoveTimes (i : Z) (k : Z -> tick A)
| IncMoveTimes (i : Z) (k : tick A).
Arguments Ret {A} a.
Arguments LoadIsMoving {A} i k.
Arguments LoadMoveTimes {A} i k.
Arguments IncMoveTimes {A} i k.

Fixpoint bind {A B} (p : tick A) (f : A -> tick B) : tick B :=
  match p with
  | Ret a => f a
  | LoadIsMoving i k => LoadIsMoving i (fun b => bind (k b) f)
  | LoadMoveTimes i k => LoadMoveTimes i (fun t => bind (k t) f)
  | IncMoveTimes i k => IncMoveTimes i (bind k f)
  end.

#[global] Instance tick_ret : MRet tick := @Ret.
#[global] Instance tick_bind : MBind tick := fun A B f p => bind p f.

(** [for (int i = 0; i < DIRECTION_NUM; i++) body], threading the
    locals [s]. *)
Fixpoint for_each {S} (body : Z -> S -> tick S) (indices : list Z) (s : S)
  : tick S :=
  match indices with
  | [] => Ret s
  | i :: rest => bind (body i s) (for_each body rest)
  end.

Definition incMoveTimes_thread : tick unit :=
  for_each (fun i _ =>
              LoadIsMoving i (fun moving =>
                if moving then IncMoveTimes i (Ret tt) else Ret tt))
           directions tt.

Definition calcMoveSteps_thread (steps : list Z) : tick (list Z) :=
  steps ← for_each (fun i steps =>
              LoadIsMoving i (fun moving =>
                if moving
                then LoadMoveTimes i (fun t =>
                       Ret (array_set steps i (moveStep t)))
                else Ret steps))
           directions steps;
  steps ← LoadIsMoving UP (fun up =>
            if up
            then LoadIsMoving DOWN (fun down =>
                   if down then Ret (array_set (array_set steps UP 0) DOWN 0)
                   else Ret steps)
            else Ret steps);
  LoadIsMoving LEFT (fun left =>
    if left
    then LoadIsMoving RIGHT (fun right =>
           if right then Ret (array_set (array_set steps LEFT 0) RIGHT 0)
           else Ret steps)
    else Ret steps).

(** [moveMouse] up to the buffer it hands to [write]. *)
Definition moveMouse_thread : tick (list Z) :=
  incMoveTimes_thread ;;
  calcMoveSteps_thread (replicate (Z.to_nat DIRECTION_NUM) 0).

(** The dispatch loop handling a batch of records. *)
Fixpoint dispatch (batch : list input_event) (g : globals) : outcome globals :=
  match batch with
  | [] => Done g
  | ev :: rest => g ← handleEvent ev g; dispatch rest g
  end.

(** [schedule] lists, access after access, the records dispatched just
    before it; a schedule that ends early dispatches nothing more. *)
Fixpoint exec {A} (p : tick A) (schedule : list (list input_event))
    (g : globals) : outcome (globals * A) :=
  match p with
  | Ret a => Done (g, a)
  | LoadIsMoving i k =>
      g ← dispatch (hd [] schedule) g;
      exec (k (array_get (isMoving g) i)) (tl schedule) g
  | LoadMoveTimes i k =>
      g ← dispatch (hd [] schedule) g;
      exec (k (array_get (moveTimes g) i)) (tl schedule) g
  | IncMoveTimes i k =>
      g ← dispatch (hd [] schedule) g;
      exec k (tl schedule)
           (set_moveTimes i (wrap_int (array_get (moveTimes g) i + 1)) g)
  end.

(** The claim that a tick computes on a snapshot: whatever the dispatch
    loop does meanwhile, the [steps] of a tick are those [calcMoveSteps]
    computes from one state of the globals. *)
Definition computes_on_snapshot (schedule : list (list input_event))
    (g : globals) : Prop :=
  forall g' steps,
    exec moveMouse_thread schedule g = Done (g', steps) ->
    exists snapshot,
      steps = calcMoveSteps snapshot (replicate (Z.to_nat DIRECTION_NUM) 0).

End Interleaved.

(** ** The two threads as a transition system

    A configuration is what is left of the current tick together with
    the globals.  Either the dispatch loop handles one record (a whole
    [handleEvent]), or the tick thread makes its next access to the
    globals; when a tick has computed its [steps] (and its [write] was
    complete) the next tick starts.  These are the states the two
    unsynchronised threads go through, seen between two records and
    between two accesses of the tick. *)

Definition access {A} (p : Interleaved.tick A) (g : globals)
  : Interleaved.tick A * globals :=
  match p with
  | Interleaved.Ret a => (Interleaved.Ret a, g)
  | Interleaved.LoadIsMoving i k => (k (array_get (isMoving g) i), g)
  | Interleaved.LoadMoveTimes i k => (k (array_get (moveTimes g) i), g)
  | Interleaved.IncMoveTimes i k =>
      (k, set_moveTimes i (wrap_int (array_get (moveTimes g) i + 1)) g)
  end.

Inductive reachable_config : Interleaved.tick (list Z) -> globals -> Prop :=
| reach_start (queryNumlock : bool) :
    reachable_config Interleaved.moveMouse_thread (engine_start queryNumlock)
| reach_record p g ev g' :
    reachable_config p g -> handleEvent ev g = Done g' ->
    reachable_config p g'
| reach_access p g :
    reachable_config p g ->
    reachable_config (fst (access p g)) (snd (access p g))
| reach_next_tick steps g :
    reachable_config (Interleaved.Ret steps) g ->
    reachable_config Interleaved.moveMouse_thread g.

Definition reachable (g : globals) : Prop := exists p, reachable_config p g.


(** The same with a set of allowed hold counts per direction, together
    with the shape of the arrays and the rule of the NumLock gate. *)
Definition idle_counts (allowed : Z -> Z -> Prop) (g : globals) : Prop :=
  wf_globals g
  /\ (forall i, 0 <= i < DIRECTION_NUM ->
        array_get (isMoving g) i = false ->
        allowed i (array_get (moveTimes g) i))
  /\ (numlockOn g = true ->
      forall i, 0 <= i < DIRECTION_NUM -> array_get (isMoving g) i = false).

Definition zero_or_one (i t : Z) : Prop := t = 0 \/ t = 1.

(** Allowed while the tick is about to increment [moveTimes[j]]. *)
Definition zero_at (j i t : Z) : Prop :=
  if i =? j then t = 0 else t = 0 \/ t = 1.

(** What holds of a configuration: of the globals now, and of the
    globals at each later access of the tick, whatever the dispatch loop
    has done by then. *)
Fixpoint tick_invariant {A} (p : Interleaved.tick A) (g : globals) : Prop :=
  match p with
  | Interleaved.Ret _ => idle_counts zero_or_one g
  | Interleaved.LoadIsMoving i k =>
      idle_counts zero_or_one g
      /\ forall g', idle_counts zero_or_one g' ->
                    tick_invariant (k (array_get (isMoving g') i)) g'
  | Interleaved.LoadMoveTimes i k =>
      idle_counts zero_or_one g
      /\ forall g', idle_counts zero_or_one g' ->
                    tick_invariant (k (array_get (moveTimes g') i)) g'
  | Interleaved.IncMoveTimes i k =>
      idle_counts (zero_at i) g
      /\ forall g', idle_counts (zero_at i) g' ->
                    tick_invariant k
                      (set_moveTimes i (wrap_int (array_get (moveTimes g') i + 1)) g')
  end.

(** ** Capability bitmaps

    [BITS_PER_LONG] is [sizeof(long) * 8] on an LP64 target.  A bitmap
    is an array of [unsigned long], each a [Z] in [0, 2^64).  Division
    and remainder of [int] truncate toward zero. *)

Definition BITS_PER_LONG : Z := 64.

Definition nbytes (x : Z) : Z := Z.quot (x - 1) BITS_PER_LONG + 1.

Definition testBits (bit : Z) (array : list Z) : bool :=
  let result :=
    Z.land (Z.shiftr (array_get array (Z.quot bit BITS_PER_LONG))
                     (Z.rem bit BITS_PER_LONG)) 1 in
  result =? 1.

(** The bit string a bitmap stands for: word 0 holds bits 0 to 63, word 1
    bits 64 to 127, and so on. *)
Fixpoint bitmap_value (array : list Z) : Z :=
  match array with
  | [] => 0
  | w :: rest => w + 2 ^ BITS_PER_LONG * bitmap_value rest
  end.

Definition unsigned_long (w : Z) : Prop := 0 <= w < 2 ^ BITS_PER_LONG.

(** ** Device names

    A C string is the characters of a [string] up to its first NUL; the
    character read at the end of the [string] is the terminator. *)

Definition char_code (c : Ascii.ascii) : Z := Z.of_N (Ascii.N_of_ascii c).

Definition first_char (s : string) : Z :=
  match s with
  | EmptyString => 0
  | String c _ => char_code c
  end.

Definition after_first (s : string) : string :=
  match s with
  | EmptyString => EmptyString
  | String _ rest => rest
  end.

Fixpoint strlen (s : string) : nat :=
  match s with
  | EmptyString => 0
  | String c rest => if char_code c =? 0 then 0 else S (strlen rest)
  end.

(** [strncmp]: compares at most [n] characters and stops at a NUL; the
    program only tests the result against 0. *)
Fixpoint strncmp (s1 s2 : string) (n : nat) : Z :=
  match n with
  | O => 0
  | S n =>
      let c1 := first_char s1 in
      let c2 := first_char s2 in
      if negb (c1 =? c2) then c1 - c2
      else if c1 =? 0 then 0
      else strncmp (after_first s1) (after_first s2) n
  end.

Definition EVENT_DEV_NAME : string := "event".
Definition EVENT_DEV_PREFIX : string := "/dev/input/".

(** [isEventDevice], on the [d_name] of the directory entry. *)
Definition isEventDevice (d_name : string) : Z :=
  if strncmp EVENT_DEV_NAME d_name (strlen EVENT_DEV_NAME) =? 0 then 1 else 0.

(** A string without a NUL character: all of it is the C string. *)
Fixpoint no_nul (s : string) : Prop :=
  match s with
  | EmptyString => True
  | String c rest => char_code c <> 0 /\ no_nul rest
  end.

(** ** Reading a keyboard *)

#[global] Instance input_event_inhabited : Inhabited input_event :=
  populate (InputEvent 0 0 0).

(** A loop [for (int j = ...; ...; j++) body(j)] whose body may end the
    process. *)
Fixpoint for_indices (body : Z -> globals -> outcome globals)
    (indices : list Z) (g : globals) : outcome globals :=
  match indices with
  | [] => Done g
  | j :: rest => g ← body j g; for_indices body rest g
  end.

(** [handleDevice]: [rd] is what [read] returned and [ev] is the buffer
    after the call.  [rd] is compared and divided as a [size_t]; the
    quotient is stored in the [int n]. *)
Definition handleDevice (rd : Z) (ev : list input_event) (g : globals)
  : outcome globals :=
  ENSURE (int_to_size_t rd mod sizeof_input_event =? 0) 340 ;;
  let n := wrap_int (int_to_size_t rd / sizeof_input_event) in
  for_indices (fun j g => handleEvent (array_get ev j) g) (seqZ 0 n) g.

(** The switch of [handleKeyEvent]: the direction a key code stands for,
    -1 for every other code. *)
Definition key_direction (code : Z) : Z :=
  if code =? KEY_KP8 then UP
  else if code =? KEY_KP2 then DOWN
  else if code =? KEY_KP4 then LEFT
  else if code =? KEY_KP6 then RIGHT
  else -1.

(** The motion report carrying the deltas [x] and [y]. *)
Definition report_of (x y : Z) : list input_event :=
  [InputEvent EV_REL REL_X x; InputEvent EV_REL REL_Y y;
   InputEvent EV_SYN SYN_REPORT 0].

(** The deltas one direction contributes when it moves alone by [s]. *)
Definition solo_report (direction s : Z) : list input_event :=
  if direction =? UP then report_of 0 (- s)
  else if direction =? DOWN then report_of 0 s
  else if direction =? LEFT then report_of (- s) 0
  else report_of s 0.

(** ** Closed forms used in the statements *)

(** The globals after [k] ticks with no record handled in between: every
    moving direction has been counted [k] times. *)
Definition after_ticks (k : Z) (g : globals) : globals :=
  Globals (numlockOn g) (isMoving g)
          (zip_with (fun (moving : bool) t => if moving then wrap_int (t + k) else t)
                    (isMoving g) (moveTimes g)).

(** What direction [i] adds to its axis on a tick started in [g]: the
    step of its incremented hold count when it moves and its opposite
    does not, and 0 otherwise. *)
Definition contribution (g : globals) (i opposite : Z) : Z :=
  if array_get (isMoving g) i && negb (array_get (isMoving g) opposite)
  then moveStep (wrap_int (array_get (moveTimes g) i + 1))
  else 0.

(** The hold counts are [int]s. *)
Definition int_counts (g : globals) : Prop := Forall int_range (moveTimes g).


(** A motion report whose deltas are at most [MAX_STEP] in size. *)
Definition bounded_report (r : list input_event) : Prop :=
  exists x y, r = report_of x y
              /\ - MAX_STEP <= x <= MAX_STEP /\ - MAX_STEP <= y <= MAX_STEP.

(** ** Probing the input devices

    What the program learns from the kernel, as the answers it gets:
    [sys_open path] is the device behind [path] ([None] when
    [open(path, O_RDONLY)] fails), with the bitmaps its three [ioctl]s
    fill in; [sys_dir] lists the names in [/dev/input/] ([None] when
    [scandir] fails), and [sys_versionsort] is the order [versionsort]
    puts names in.  The answers do not change between two calls. *)

Definition LED_CAPSL : Z := 1.

Record evdev : Type := EvDev {
  dev_types : list Z;
  dev_codes : Z -> list Z;
  dev_leds : list Z
}.

Record system : Type := System {
  sys_open : string -> option evdev;
  sys_dir : option (list string);
  sys_versionsort : list string -> list string
}.

(** [scandir(EVENT_DEV_PREFIX, &direntList, filter, versionsort)]: the
    number of entries the filter keeps, or -1, and the entries sorted. *)
Definition scandir (sys : system) (filter : string -> Z) : Z * list string :=
  match sys_dir sys with
  | None => (-1, [])
  | Some names =>
      let selected :=
        sys_versionsort sys (List.filter (fun d => negb (filter d =? 0)) names) in
      (Z.of_nat (length selected), selected)
  end.

Definition getAllEventDevicePath (sys : system) : outcome (list string) :=
  let '(ndev, direntList) := scandir sys isEventDevice in
  ENSURE (0 <? ndev) 73 ;;
  mret ((fun i => EVENT_DEV_PREFIX +:+ array_get direntList i) <$> seqZ 0 ndev).

Definition isSupportType (sys : system) (path : string) (type : Z) : bool :=
  match sys_open sys path with
  | None => false
  | Some dev => if negb (testBits type (dev_types dev)) then false else true
  end.

Definition isSupportTypeCode (sys : system) (path : string) (type code : Z)
  : bool :=
  if negb (isSupportType sys path type) then false
  else
    match sys_open sys path with
    | None => false
    | Some dev =>
        if negb (testBits code (dev_codes dev type)) then false else true
    end.

Definition NEEDED_KEY : list Z := [KEY_KP8; KEY_KP2; KEY_KP4; KEY_KP6].

(** The loop of [isValidKeyboard] over the keys still to test. *)
Fixpoint isValidKeyboard_from (sys : system) (path : string) (keys : list Z)
  : bool :=
  match keys with
  | [] => true
  | key :: rest =>
      if negb (isSupportTypeCode sys path EV_KEY key) then false
      else isValidKeyboard_from sys path rest
  end.

Definition isValidKeyboard (sys : system) (path : string) : bool :=
  isValidKeyboard_from sys path NEEDED_KEY.

Definition getAllValidKeyboard (sys : system) : outcome (list string) :=
  allDevice ← getAllEventDevicePath sys;
  mret (foldl (fun validDevice path =>
                 if isValidKeyboard sys path then validDevice ++ [path]
                 else validDevice)
              [] allDevice).

(** The loop of [getOneNumLockDevice] over the devices still to test. *)
Fixpoint getOneNumLockDevice_from (sys : system) (allDevice : list string)
  : string :=
  match allDevice with
  | [] => ""
  | path :: rest =>
      if isSupportTypeCode sys path EV_LED LED_CAPSL then path
      else getOneNumLockDevice_from sys rest
  end.

Definition getOneNumLockDevice (sys : system) : outcome string :=
  allDevice ← getAllEventDevicePath sys;
  mret (getOneNumLockDevice_from sys allDevice).

Definition queryNumlock (sys : system) : outcome bool :=
  ledDevice ← getOneNumLockDevice sys;
  if String.eqb ledDevice "" then mret false
  else
    match sys_open sys ledDevice with
    | None => Fatal 367
    | Some dev =>
        mret (if testBits LED_NUML (dev_leds dev) then true else false)
    end.

(** A name that starts with "event". *)
Definition event_name (d : string) : Prop := exists rest, d = "event" +:+ rest.

(** A device that reports key events and the four keypad keys. *)
Definition keypad_device (dev : evdev) : Prop :=
  testBits EV_KEY (dev_types dev) = true
  /\ Forall (fun key => testBits key (dev_codes dev EV_KEY) = true) NEEDED_KEY.

(** [results P p]: every result the tick-side computation [p] can return,
    whatever it reads, satisfies [P]. *)
Fixpoint results {A} (P : A -> Prop) (p : Interleaved.tick A) : Prop :=
  match p with
  | Interleaved.Ret a => P a
  | Interleaved.LoadIsMoving _ k => forall moving, results P (k moving)
  | Interleaved.LoadMoveTimes _ k => forall t, results P (k t)
  | Interleaved.IncMoveTimes _ k => results P k
  end.

(** A [steps] array of four cells, each 0 or a step of the curve. *)
Definition steps_in_range (steps : list Z) : Prop :=
  length steps = Z.to_nat DIRECTION_NUM
  /\ Forall (fun s => 0 <= s <= MAX_STEP) steps.

(** * Properties *)

(** ** The acceleration curve *)

Section Curve.

Lemma linear_regime_checked :
  forallb linear_regime_ok (seqZ (MIN_POINT + 1) (MAX_POINT - MIN_POINT)) = true.
Proof. vm_compute. reflexivity. Qed.

Lemma linear_regime_ok_all (t : Z) :
  MIN_POINT < t <= MAX_POINT -> linear_regime_ok t = true.
Proof.
  intros Ht.
  pose proof linear_regime_checked as Hall.
  rewrite forallb_forall in Hall. apply Hall.
  apply list_elem_of_In, elem_of_seqZ. unfold MIN_POINT, MAX_POINT in *. lia.
Qed.

(** The conversion of the [double] result to [int] is defined. *)
Lemma moveStep_conversion_defined (t : Z) :
  MIN_POINT < t <= MAX_POINT ->
  exists z, Double.trunc (moveStep_linear t) = Some z /\ int_range z.
Proof.
  intros Ht. apply linear_regime_ok_all in Ht. unfold linear_regime_ok in Ht.
  destruct (Double.trunc (moveStep_linear t)) as [z|]; [|discriminate].
  exists z. split; [reflexivity|]. unfold int_range. lia.
Qed.

(** In the linear regime the result is the integer quotient
    [MIN_STEP + 9 * (t - 50) / 150]. *)
Lemma moveStep_quotient (t : Z) :
  MIN_POINT < t <= MAX_POINT ->
  moveStep t = MIN_STEP + (MAX_STEP - MIN_STEP) * (t - MIN_POINT)
                          / (MAX_POINT - MIN_POINT).
Proof.
  intros Ht. pose proof (linear_regime_ok_all t Ht) as Hok.
  unfold linear_regime_ok in Hok. unfold moveStep, Double.to_int.
  destruct (Double.trunc (moveStep_linear t)) as [z|]; [|discriminate].
  destruct (Z.leb_spec t MIN_POINT); [lia|].
  destruct (Z.leb_spec t MAX_POINT); [|lia].
  destruct ((INT_MIN <=? z) && (z <=? INT_MAX)); simpl in Hok; [|discriminate].
  lia.
Qed.

Lemma moveStep_below (t : Z) : t <= MIN_POINT -> moveStep t = MIN_STEP.
Proof. intros Ht. unfold moveStep. destruct (Z.leb_spec t MIN_POINT); [reflexivity|lia]. Qed.

Lemma moveStep_above (t : Z) : MAX_POINT < t -> moveStep t = MAX_STEP.
Proof.
  intros Ht. unfold moveStep, MIN_POINT, MAX_POINT in *.
  destruct (Z.leb_spec t 50); [lia|]. destruct (Z.leb_spec t 200); [lia|reflexivity].
Qed.

Lemma moveStep_refines_spec (t : Z) : moveStep t = step_spec t.
Proof.
  destruct (Z.le_gt_cases t MIN_POINT) as [Hlo|Hlo].
  - rewrite moveStep_below by assumption. unfold step_spec.
    destruct (Z.leb_spec t MIN_POINT); [reflexivity|lia].
  - destruct (Z.le_gt_cases t MAX_POINT) as [Hhi|Hhi].
    + assert (Ht : MIN_POINT < t <= MAX_POINT) by lia.
      pose proof (linear_regime_ok_all t Ht) as Hok.
      unfold linear_regime_ok in Hok. unfold moveStep, Double.to_int.
      destruct (Double.trunc (moveStep_linear t)) as [z|]; [|discriminate].
      destruct (Z.leb_spec t MIN_POINT); [lia|].
      destruct (Z.leb_spec t MAX_POINT); [|lia].
      destruct ((INT_MIN <=? z) && (z <=? INT_MAX)); simpl in Hok; [|discriminate].
      lia.
    + rewrite moveStep_above by lia. unfold step_spec, MIN_POINT, MAX_POINT in *.
      destruct (Z.leb_spec t 50); [lia|]. destruct (Z.leb_spec t 200); [lia|reflexivity].
Qed.

Lemma moveStep_bounds (t : Z) : MIN_STEP <= moveStep t <= MAX_STEP.
Proof.
  destruct (Z.le_gt_cases t MIN_POINT) as [Hlo|Hlo].
  - rewrite moveStep_below by assumption. unfold MIN_STEP, MAX_STEP. lia.
  - destruct (Z.le_gt_cases t MAX_POINT) as [Hhi|Hhi].
    + rewrite moveStep_quotient by lia.
      unfold MIN_STEP, MAX_STEP, MIN_POINT, MAX_POINT in *.
      assert (0 <= (10 - 1) * (t - 50) / (200 - 50) <= 9); [|lia].
      split; [apply Z.div_pos; lia|].
      apply Z.div_le_upper_bound; lia.
    + rewrite moveStep_above by lia. unfold MIN_STEP, MAX_STEP. lia.
Qed.

Lemma moveStep_mono (t1 t2 : Z) : t1 <= t2 -> moveStep t1 <= moveStep t2.
Proof.
  intros Hle.
  destruct (Z.le_gt_cases t1 MIN_POINT) as [H1|H1].
  { rewrite (moveStep_below t1) by assumption. apply moveStep_bounds. }
  destruct (Z.le_gt_cases t2 MAX_POINT) as [H2|H2].
  - rewrite !moveStep_quotient by lia.
    apply Z.add_le_mono_l, Z.div_le_mono; unfold MAX_STEP, MIN_STEP, MAX_POINT, MIN_POINT in *; lia.
  - rewrite (moveStep_above t2) by lia. apply moveStep_bounds.
Qed.

End Curve.

(** C1. [moveStep] is the three-regime curve of the specification: it
    coincides everywhere with [step_spec], that is, it returns [MIN_STEP]
    up to [MIN_POINT = 50], the truncation of the exact rational
    [MIN_STEP + (t-50)/(200-50) * (MAX_STEP-MIN_STEP)] on (50, 200], and
    [MAX_STEP] above [MAX_POINT = 200]; in particular it is 5 at 125 and
    10 at 200. *)
Theorem moveStep_three_regimes :
  (forall t : Z,
     moveStep t = step_spec t /\
     (t <= 50 /\ moveStep t = 1
      \/ 50 < t <= 200 /\
         moveStep t = Qtrunc (1 + inject_Z (t - 50) / inject_Z (200 - 50)
                                  * inject_Z (10 - 1))%Q
      \/ 200 < t /\ moveStep t = 10))
  /\ moveStep 125 = 5 /\ moveStep 200 = 10.
Proof.
  split; [|split; vm_compute; reflexivity].
  intros t. split; [apply moveStep_refines_spec|].
  destruct (Z.le_gt_cases t 50) as [Hlo|Hlo].
  - left. split; [assumption|]. apply moveStep_below. assumption.
  - destruct (Z.le_gt_cases t 200) as [Hhi|Hhi].
    + right; left. split; [lia|].
      rewrite moveStep_refines_spec. unfold step_spec, MIN_POINT, MAX_POINT.
      destruct (Z.leb_spec t 50); [lia|]. destruct (Z.leb_spec t 200); [|lia].
      reflexivity.
    + right; right. split; [lia|]. apply moveStep_above. unfold MAX_POINT. lia.
Qed.

(** C6. [moveStep] is monotonic non-decreasing: for all hold durations
    [t2 >= t1 >= 0], [moveStep t2 >= moveStep t1]. *)
Theorem moveStep_monotonic (t1 t2 : Z) :
  0 <= t1 -> t1 <= t2 -> moveStep t2 >= moveStep t1.
Proof. intros _ Hle. apply Z.le_ge, moveStep_mono, Hle. Qed.

Lemma moveStep_monotonic_witness :
  0 <= 60 /\ 60 <= 180 /\ moveStep 60 = 1 /\ moveStep 180 = 8 /\
  moveStep 180 >= moveStep 60.
Proof.
  split; [lia|]. split; [lia|].
  split; [vm_compute; reflexivity|]. split; [vm_compute; reflexivity|].
  apply (moveStep_monotonic 60 180); lia.
Defined.

(** C7. [moveStep] is bounded: for every hold duration [t >= 0],
    [1 <= moveStep t <= 10]. *)
Theorem moveStep_bounded (t : Z) : 0 <= t -> 1 <= moveStep t <= 10.
Proof. intros _. apply moveStep_bounds. Qed.

Lemma moveStep_bounded_witness : 0 <= 137 /\ 1 <= moveStep 137 <= 10.
Proof. split; [lia|]. apply (moveStep_bounded 137). lia. Defined.

(** ** Shape of the globals *)

Arguments wrap_int : simpl never.
Arguments moveStep : simpl never.

Lemma wf_globals_cells (g : globals) :
  wf_globals g ->
  exists nl m0 m1 m2 m3 t0 t1 t2 t3,
    g = Globals nl [m0; m1; m2; m3] [t0; t1; t2; t3].
Proof.
  destruct g as [nl ms ts]. intros [Hm Ht]. cbn in Hm, Ht.
  destruct ms as [|m0 [|m1 [|m2 [|m3 [|? ?]]]]]; try discriminate Hm.
  destruct ts as [|t0 [|t1 [|t2 [|t3 [|? ?]]]]]; try discriminate Ht.
  repeat eexists.
Qed.

Lemma direction_cases (i : Z) :
  0 <= i < DIRECTION_NUM -> i = UP \/ i = DOWN \/ i = LEFT \/ i = RIGHT.
Proof. unfold DIRECTION_NUM, UP, DOWN, LEFT, RIGHT. lia. Qed.

Ltac cells g H :=
  let nl := fresh "nl" in
  destruct (wf_globals_cells g H)
    as (nl & ?m0 & ?m1 & ?m2 & ?m3 & ?t0 & ?t1 & ?t2 & ?t3 & ->).

Ltac each_direction i H :=
  destruct (direction_cases i H) as [-> | [-> | [-> | ->]]].

Lemma wf_cells nl m0 m1 m2 m3 t0 t1 t2 t3 :
  wf_globals (Globals nl [m0; m1; m2; m3] [t0; t1; t2; t3]).
Proof. split; reflexivity. Qed.

(** ** [setIsMoving] *)

(** C3 (as stated) fails on a press: with [isMoving[UP]] false and
    [moveTimes[UP] = 7], [setIsMoving(UP, true)] changes the flag and
    leaves the count at 7. *)
Lemma press_keeps_moveTimes :
  let g := Globals false [false; false; false; false] [7; 0; 0; 0] in
  wf_globals g /\
  keyAction UP 1 g = Done (setIsMoving UP 1 g) /\
  array_get (isMoving g) UP = false /\
  array_get (isMoving (setIsMoving UP 1 g)) UP = true /\
  array_get (moveTimes (setIsMoving UP 1 g)) UP = 7 /\
  ~ resets_on_change g UP 1.
Proof.
  cbv zeta. repeat split.
  intros H. unfold resets_on_change in H. cbn in H.
  specialize (H ltac:(discriminate)). discriminate H.
Qed.

(** C3 (amended). [setIsMoving] stores the flag; a release
    ([value = 0]) sets the hold count of that direction to 0, whatever
    the flag was; a press leaves every hold count as it is.  So the count
    is 0 after any change of the flag as soon as it was 0 while the
    direction was inactive. *)
Theorem setIsMoving_reset_law (g : globals) (index value : Z) :
  wf_globals g -> 0 <= index < DIRECTION_NUM ->
  let g' := setIsMoving index value g in
  array_get (isMoving g') index = int_to_bool value
  /\ (value = 0 -> array_get (moveTimes g') index = 0)
  /\ (value <> 0 -> moveTimes g' = moveTimes g)
  /\ ((array_get (isMoving g) index = false ->
       array_get (moveTimes g) index = 0) ->
      array_get (isMoving g) index <> int_to_bool value ->
      array_get (moveTimes g') index = 0).
Proof.
  intros Hwf Hi. cells g Hwf. unfold setIsMoving, int_to_bool.
  destruct (Z.eqb_spec value 0) as [->|Hv]; cbn [negb].
  - each_direction index Hi; cbn; repeat split; try reflexivity; try congruence.
  - each_direction index Hi; cbn; repeat split; try reflexivity; try congruence;
      intros Hinv Hchg; apply Hinv;
      match goal with |- ?b = false => destruct b; congruence end.
Qed.

Lemma setIsMoving_reset_law_witness :
  let g := Globals false [true; false; false; false] [12; 0; 0; 0] in
  array_get (moveTimes (setIsMoving UP 0 g)) UP = 0 /\
  moveTimes (setIsMoving DOWN 1 g) = moveTimes g /\
  array_get (moveTimes (setIsMoving DOWN 1 g)) DOWN = 0.
Proof.
  cbv zeta.
  pose (g := Globals false [true; false; false; false] [12; 0; 0; 0]).
  assert (Hwf : wf_globals g) by (split; reflexivity).
  assert (Hup : 0 <= UP < DIRECTION_NUM) by (unfold UP, DIRECTION_NUM; lia).
  assert (Hdn : 0 <= DOWN < DIRECTION_NUM) by (unfold DOWN, DIRECTION_NUM; lia).
  destruct (setIsMoving_reset_law g UP 0 Hwf Hup) as (_ & Hrel & _).
  destruct (setIsMoving_reset_law g DOWN 1 Hwf Hdn) as (_ & _ & Hkeep & Hchg).
  split; [apply Hrel; reflexivity|].
  split; [apply Hkeep; discriminate|].
  apply Hchg; [reflexivity | discriminate].
Defined.

(** ** The NumLock gate *)

Lemma handleLEDEvent_numlock_on (ev : input_event) (g : globals) :
  wf_globals g -> numlockOn g = false ->
  numlockOn (handleLEDEvent ev g) = true ->
  neutral (handleLEDEvent ev g).
Proof.
  intros Hwf Hoff. cells g Hwf. cbn in Hoff. subst nl. unfold handleLEDEvent.
  destruct (ev_code ev =? LED_NUML); [|discriminate].
  destruct (ev_value ev =? 0); [discriminate|].
  destruct (ev_value ev =? 1); [|discriminate].
  intros _ i Hi. each_direction i Hi; cbn; split; reflexivity.
Qed.

Lemma handleKeyEvent_keeps_numlock (ev : input_event) (g g' : globals) :
  handleKeyEvent ev g = Done g' -> numlockOn g' = numlockOn g.
Proof.
  unfold handleKeyEvent, keyAction, ENSURE.
  destruct (numlockOn g) eqn:Hnl; [intros [= <-]; assumption|].
  repeat match goal with
         | |- context [if ?c then _ else _] => destruct c; cbn
         end;
    intros [= <-]; cbn; try assumption; try discriminate.
Qed.

(** C4. While [numlockOn] is true no key event changes anything (so no
    direction state changes); and when an event turns [numlockOn] from
    false to true, all four directions are left inactive with a hold
    count of 0. *)
Theorem numlock_suppression (g : globals) (ev : input_event) :
  wf_globals g ->
  (numlockOn g = true -> ev_type ev = EV_KEY -> handleEvent ev g = Done g)
  /\ (forall g', numlockOn g = false -> handleEvent ev g = Done g' ->
        numlockOn g' = true -> neutral g').
Proof.
  intros Hwf. split.
  - intros Hon Hkey. unfold handleEvent, handleKeyEvent.
    rewrite Hkey, Hon. reflexivity.
  - intros g' Hoff Hstep Hon'. unfold handleEvent in Hstep.
    destruct (ev_type ev =? EV_KEY).
    + apply handleKeyEvent_keeps_numlock in Hstep. congruence.
    + destruct (ev_type ev =? EV_LED); injection Hstep as <-.
      * apply handleLEDEvent_numlock_on; assumption.
      * congruence.
Qed.

Lemma numlock_suppression_witness :
  let blocked := Globals true [false; false; false; false] [0; 0; 0; 0] in
  let moving := Globals false [true; false; true; false] [40; 0; 7; 0] in
  let led_on := InputEvent EV_LED LED_NUML 1 in
  handleEvent (InputEvent EV_KEY KEY_KP8 1) blocked = Done blocked
  /\ handleEvent led_on moving = Done blocked
  /\ neutral blocked.
Proof.
  cbv zeta.
  split; [|split].
  - apply (numlock_suppression
             (Globals true [false; false; false; false] [0; 0; 0; 0])
             (InputEvent EV_KEY KEY_KP8 1)); [split|..]; reflexivity.
  - reflexivity.
  - apply (numlock_suppression
             (Globals false [true; false; true; false] [40; 0; 7; 0])
             (InputEvent EV_LED LED_NUML 1)); [split|..]; reflexivity.
Defined.

(** C5 (as stated) fails at [value = 2]: with the gate open, a NumLock
    LED event of value 2 leaves it open (and the state as it was). *)
Lemma led_value_2_ignored :
  let g := engine_start false in
  let ev := InputEvent EV_LED LED_NUML 2 in
  numlockOn g = false /\ int_to_bool (ev_value ev) = true /\
  handleEvent ev g = Done g /\
  ~ led_sets_gate_to_nonzero ev g.
Proof.
  cbv zeta. repeat split.
  intros H. destruct (H eq_refl eq_refl) as (g' & Hstep & Hon).
  cbn in Hstep. injection Hstep as <-. discriminate Hon.
Qed.

(** C5 (amended). A NumLock LED event is handled by [handleLEDEvent]:
    value 0 clears [numlockOn] and touches nothing else, value 1 sets it,
    and every other value leaves the whole state as it was. *)
Theorem led_event_gate (ev : input_event) (g : globals) :
  ev_type ev = EV_LED -> ev_code ev = LED_NUML ->
  handleEvent ev g = Done (handleLEDEvent ev g)
  /\ (ev_value ev = 0 -> handleLEDEvent ev g = set_numlockOn false g)
  /\ (ev_value ev = 1 -> numlockOn (handleLEDEvent ev g) = true)
  /\ (ev_value ev <> 0 -> ev_value ev <> 1 -> handleLEDEvent ev g = g).
Proof.
  intros Hty Hcode. unfold handleEvent, handleLEDEvent. rewrite Hty, Hcode.
  cbn [Z.eqb EV_LED EV_KEY LED_NUML Pos.eqb].
  split; [reflexivity|]. split; [|split].
  - intros ->. reflexivity.
  - intros ->. cbn [Z.eqb Pos.eqb].
    generalize (set_numlockOn true g) (eq_refl : numlockOn (set_numlockOn true g) = true).
    unfold directions. cbn [seqZ DIRECTION_NUM Z.to_nat Pos.to_nat Pos.iter_op Nat.add seq fmap list_fmap foldl].
    intros g0 H0. unfold setIsMoving. cbn. assumption.
  - intros H0 H1.
    destruct (Z.eqb_spec (ev_value ev) 0); [contradiction|].
    destruct (Z.eqb_spec (ev_value ev) 1); [contradiction|]. reflexivity.
Qed.

Lemma led_event_gate_witness :
  let g := Globals false [true; false; false; false] [3; 0; 0; 0] in
  numlockOn (handleLEDEvent (InputEvent EV_LED LED_NUML 1) g) = true
  /\ handleLEDEvent (InputEvent EV_LED LED_NUML 2) g = g
  /\ handleLEDEvent (InputEvent EV_LED LED_NUML 0) (set_numlockOn true g) = g.
Proof.
  cbv zeta.
  pose (g := Globals false [true; false; false; false] [3; 0; 0; 0]).
  split; [|split].
  - apply (led_event_gate (InputEvent EV_LED LED_NUML 1) g); reflexivity.
  - apply (led_event_gate (InputEvent EV_LED LED_NUML 2) g);
      [reflexivity | reflexivity | cbn; lia | cbn; lia].
  - apply (led_event_gate (InputEvent EV_LED LED_NUML 0) (set_numlockOn true g));
      reflexivity.
Defined.

(** ** Invariants of the engine *)

Lemma engine_invariant_cells nl m0 m1 m2 m3 t0 t1 t2 t3 :
  engine_invariant (Globals nl [m0; m1; m2; m3] [t0; t1; t2; t3]) <->
  ((m0 = false -> t0 = 0) /\ (m1 = false -> t1 = 0) /\
   (m2 = false -> t2 = 0) /\ (m3 = false -> t3 = 0)) /\
  (nl = true -> m0 = false /\ m1 = false /\ m2 = false /\ m3 = false).
Proof.
  unfold engine_invariant. split.
  - intros (_ & Hhold & Hgate). split.
    + repeat split.
      * apply (Hhold UP). unfold UP, DIRECTION_NUM; lia.
      * apply (Hhold DOWN). unfold DOWN, DIRECTION_NUM; lia.
      * apply (Hhold LEFT). unfold LEFT, DIRECTION_NUM; lia.
      * apply (Hhold RIGHT). unfold RIGHT, DIRECTION_NUM; lia.
    + intros Hnl. specialize (Hgate Hnl). repeat split.
      * apply (Hgate UP). unfold UP, DIRECTION_NUM; lia.
      * apply (Hgate DOWN). unfold DOWN, DIRECTION_NUM; lia.
      * apply (Hgate LEFT). unfold LEFT, DIRECTION_NUM; lia.
      * apply (Hgate RIGHT). unfold RIGHT, DIRECTION_NUM; lia.
  - intros ((H0 & H1 & H2 & H3) & Hgate). split; [apply wf_cells|]. split.
    + intros i Hi. each_direction i Hi; cbn; assumption.
    + intros Hnl i Hi. destruct (Hgate Hnl) as (G0 & G1 & G2 & G3).
      each_direction i Hi; cbn; assumption.
Qed.


Lemma engine_start_neutral (queryNumlock : bool) :
  neutral (engine_start queryNumlock).
Proof. intros i Hi. each_direction i Hi; split; reflexivity. Qed.

Lemma setIsMoving_invariant (index value : Z) (g : globals) :
  0 <= index < DIRECTION_NUM -> numlockOn g = false \/ value = 0 ->
  engine_invariant g -> engine_invariant (setIsMoving index value g).
Proof.
  intros Hi Hopen Hinv. destruct (Hinv) as (Hwf & _). cells g Hwf.
  apply engine_invariant_cells in Hinv.
  destruct Hinv as ((H0 & H1 & H2 & H3) & Hgate).
  unfold setIsMoving, int_to_bool.
  destruct (Z.eqb_spec value 0) as [->|Hv]; cbn [negb].
  - each_direction index Hi; cbn; apply engine_invariant_cells; cbn;
      intuition congruence.
  - destruct Hopen as [Hopen|]; [|contradiction]. cbn in Hopen. subst nl.
    each_direction index Hi; cbn; apply engine_invariant_cells; cbn;
      intuition congruence.
Qed.

Lemma handleLEDEvent_invariant (ev : input_event) (g : globals) :
  engine_invariant g -> engine_invariant (handleLEDEvent ev g).
Proof.
  intros Hinv. destruct (Hinv) as (Hwf & _). cells g Hwf.
  apply engine_invariant_cells in Hinv.
  destruct Hinv as ((H0 & H1 & H2 & H3) & Hgate).
  unfold handleLEDEvent.
  destruct (ev_code ev =? LED_NUML); [|apply engine_invariant_cells; tauto].
  destruct (ev_value ev =? 0).
  { apply engine_invariant_cells. split; [tauto|discriminate]. }
  destruct (ev_value ev =? 1); [|apply engine_invariant_cells; tauto].
  cbn. apply engine_invariant_cells. tauto.
Qed.

Lemma handleEvent_total (ev : input_event) (g : globals) :
  exists g', handleEvent ev g = Done g'.
Proof.
  unfold handleEvent, handleKeyEvent.
  destruct (ev_type ev =? EV_KEY);
    [|destruct (ev_type ev =? EV_LED); eexists; reflexivity].
  destruct (numlockOn g); [eexists; reflexivity|].
  assert (Hkey : forall index, 0 <= index < DIRECTION_NUM ->
            exists g', keyAction index (ev_value ev) g = Done g').
  { intros index Hi. unfold keyAction, ENSURE.
    replace ((0 <=? index) && (index <? DIRECTION_NUM)) with true
      by (symmetry; apply andb_true_intro; split;
          [apply Z.leb_le | apply Z.ltb_lt]; lia).
    cbn [mbind outcome_bind mret outcome_ret]. destruct (ev_value ev =? 1); [|destruct (ev_value ev =? 0)];
      eexists; reflexivity. }
  destruct (ev_code ev =? KEY_KP8); [apply Hkey; unfold UP, DIRECTION_NUM; lia|].
  destruct (ev_code ev =? KEY_KP2); [apply Hkey; unfold DOWN, DIRECTION_NUM; lia|].
  destruct (ev_code ev =? KEY_KP4); [apply Hkey; unfold LEFT, DIRECTION_NUM; lia|].
  destruct (ev_code ev =? KEY_KP6); [apply Hkey; unfold RIGHT, DIRECTION_NUM; lia|].
  eexists; reflexivity.
Qed.

Lemma handleEvent_invariant (ev : input_event) (g g' : globals) :
  engine_invariant g -> handleEvent ev g = Done g' -> engine_invariant g'.
Proof.
  intros Hinv. unfold handleEvent.
  destruct (ev_type ev =? EV_KEY).
  - unfold handleKeyEvent.
    destruct (numlockOn g) eqn:Hnl; [intros [= <-]; assumption|].
    assert (Hkey : forall index, 0 <= index < DIRECTION_NUM ->
              keyAction index (ev_value ev) g = Done g' -> engine_invariant g').
    { intros index Hi. unfold keyAction, ENSURE.
      destruct ((0 <=? index) && (index <? DIRECTION_NUM)); [|discriminate].
      cbn [mbind outcome_bind mret outcome_ret]. destruct (ev_value ev =? 1); [|destruct (ev_value ev =? 0)];
        intros [= <-]; try assumption;
        apply setIsMoving_invariant; auto. }
    destruct (ev_code ev =? KEY_KP8); [apply Hkey; unfold UP, DIRECTION_NUM; lia|].
    destruct (ev_code ev =? KEY_KP2); [apply Hkey; unfold DOWN, DIRECTION_NUM; lia|].
    destruct (ev_code ev =? KEY_KP4); [apply Hkey; unfold LEFT, DIRECTION_NUM; lia|].
    destruct (ev_code ev =? KEY_KP6); [apply Hkey; unfold RIGHT, DIRECTION_NUM; lia|].
    cbn. intros [= <-]. assumption.
  - destruct (ev_type ev =? EV_LED); intros [= <-];
      [apply handleLEDEvent_invariant|]; assumption.
Qed.

Lemma incMoveTimes_cells nl m0 m1 m2 m3 t0 t1 t2 t3 :
  incMoveTimes (Globals nl [m0; m1; m2; m3] [t0; t1; t2; t3]) =
  Globals nl [m0; m1; m2; m3]
    [if m0 then wrap_int (t0 + 1) else t0; if m1 then wrap_int (t1 + 1) else t1;
     if m2 then wrap_int (t2 + 1) else t2; if m3 then wrap_int (t3 + 1) else t3].
Proof. destruct m0, m1, m2, m3; reflexivity. Qed.


Lemma moveMouse_unfold (ret : Z) (g : globals) :
  moveMouse ret g =
  (motion_report (calcMoveSteps (incMoveTimes g)
                                (replicate (Z.to_nat DIRECTION_NUM) 0)),
   if full_write ret then Done (incMoveTimes g) else Fatal 436).
Proof.
  unfold moveMouse, writeDevice, ENSURE.
  destruct (full_write ret); reflexivity.
Qed.

Lemma run_nil (g : globals) : run [] g = ([], Done g).
Proof. reflexivity. Qed.

Lemma run_event (ev : input_event) (rest : list input) (g : globals) :
  run (KeyboardEvent ev :: rest) g =
  match handleEvent ev g with
  | Done g' => run rest g'
  | Fatal l => ([], Fatal l)
  end.
Proof. reflexivity. Qed.

Lemma run_tick (ret : Z) (rest : list input) (g : globals) :
  run (TimerTick ret :: rest) g =
  let ev := motion_report (calcMoveSteps (incMoveTimes g)
                             (replicate (Z.to_nat DIRECTION_NUM) 0)) in
  if full_write ret
  then (ev :: fst (run rest (incMoveTimes g)), snd (run rest (incMoveTimes g)))
  else ([ev], Fatal 436).
Proof.
  change (run (TimerTick ret :: rest) g) with
    (match moveMouse ret g with
     | (ev, Done g') => let '(written, o) := run rest g' in (ev :: written, o)
     | (ev, Fatal l) => ([ev], Fatal l)
     end).
  rewrite moveMouse_unfold. cbv zeta.
  destruct (full_write ret); [|reflexivity].
  destruct (run rest (incMoveTimes g)); reflexivity.
Qed.



Lemma setIsMoving_press (g : globals) (i : Z) :
  wf_globals g -> 0 <= i < DIRECTION_NUM ->
  moveTimes (setIsMoving i 1 g) = moveTimes g
  /\ array_get (isMoving (setIsMoving i 1 g)) i = true.
Proof.
  intros Hwf Hi. cells g Hwf. each_direction i Hi; split; reflexivity.
Qed.



(** ** The emitter *)

Lemma calcMoveSteps_cells nl m0 m1 m2 m3 t0 t1 t2 t3 s0 s1 s2 s3 :
  calcMoveSteps (Globals nl [m0; m1; m2; m3] [t0; t1; t2; t3]) [s0; s1; s2; s3] =
  [if m0 then (if m1 then 0 else moveStep t0) else s0;
   if m1 then (if m0 then 0 else moveStep t1) else s1;
   if m2 then (if m3 then 0 else moveStep t2) else s2;
   if m3 then (if m2 then 0 else moveStep t3) else s3].
Proof. destruct m0, m1, m2, m3; reflexivity. Qed.



(** ** Fatal emission errors *)

Lemma full_write_iff (ret : Z) :
  int_range ret -> full_write ret = true <-> ret = sizeof_ev.
Proof.
  unfold int_range, INT_MIN, INT_MAX, full_write, int_to_size_t, SIZE_BITS,
    sizeof_ev, sizeof_input_event.
  intros Hr. rewrite Z.eqb_eq. split; [|intros ->; reflexivity].
  intros Hmod. destruct (Z.neg_nonneg_cases ret) as [Hneg|Hpos].
  - rewrite <- (Z.mod_add ret 1) in Hmod by lia.
    rewrite Z.mod_small in Hmod by lia. lia.
  - rewrite Z.mod_small in Hmod by lia. assumption.
Qed.

Lemma run_app (before after : list input) :
  forall g,
    run (before ++ after) g =
    match run before g with
    | (written, Done g') =>
        (written ++ fst (run after g'), snd (run after g'))
    | (written, Fatal l) => (written, Fatal l)
    end.
Proof.
  induction before as [|[ev|ret] rest IH]; intros g.
  - rewrite run_nil. cbn [app]. destruct (run after g); reflexivity.
  - change ((KeyboardEvent ev :: rest) ++ after)
      with (KeyboardEvent ev :: (rest ++ after)).
    rewrite !run_event. destruct (handleEvent ev g); [apply IH|reflexivity].
  - change ((TimerTick ret :: rest) ++ after)
      with (TimerTick ret :: (rest ++ after)).
    rewrite !run_tick. cbv zeta. destruct (full_write ret); [|reflexivity].
    rewrite IH. destruct (run rest (incMoveTimes g)) as [w [g'|l]]; reflexivity.
Qed.

(** C8. When the [write] of the three records returns anything but their
    full size, [writeDevice] ends in the fatal [ENSURE]: the tick is
    fatal, the run stops there, and what it wrote is what it had written
    when the partial write was issued -- nothing is written again and
    no later input is handled. *)
Theorem partial_write_is_fatal
    (steps : list Z) (g : globals) (ret : Z) (before after : list input) :
  int_range ret -> ret <> sizeof_ev ->
  writeDevice steps ret = (motion_report steps, Fatal 436)
  /\ snd (moveMouse ret g) = Fatal 436
  /\ run (before ++ TimerTick ret :: after) g = run (before ++ [TimerTick ret]) g
  /\ (forall written g',
        run before g = (written, Done g') ->
        run (before ++ TimerTick ret :: after) g =
        (written ++ [fst (moveMouse ret g')], Fatal 436)).
Proof.
  intros Hr Hne.
  assert (Hfw : full_write ret = false).
  { destruct (full_write ret) eqn:E; [|reflexivity].
    apply full_write_iff in E; [contradiction|assumption]. }
  split; [|split; [|split]].
  - unfold writeDevice, ENSURE. rewrite Hfw. reflexivity.
  - rewrite moveMouse_unfold, Hfw. reflexivity.
  - rewrite !run_app. destruct (run before g) as [w [g'|l]]; [|reflexivity].
    rewrite !run_tick. cbv zeta. rewrite Hfw. reflexivity.
  - intros written g' Hbefore. rewrite run_app, Hbefore, run_tick. cbv zeta.
    rewrite moveMouse_unfold, Hfw. reflexivity.
Qed.

Lemma partial_write_is_fatal_witness :
  let g := engine_start false in
  let press_up := KeyboardEvent (InputEvent EV_KEY KEY_KP8 1) in
  let neutral_report :=
    [InputEvent EV_REL REL_X 0; InputEvent EV_REL REL_Y 0;
     InputEvent EV_SYN SYN_REPORT 0] in
  let up_report :=
    [InputEvent EV_REL REL_X 0; InputEvent EV_REL REL_Y (-1);
     InputEvent EV_SYN SYN_REPORT 0] in
  int_range 48 /\ 48 <> sizeof_ev
  /\ run [TimerTick sizeof_ev; press_up; TimerTick 48; TimerTick sizeof_ev;
          press_up] g
     = ([neutral_report; up_report], Fatal 436).
Proof.
  cbv zeta.
  assert (Hr : int_range 48) by (unfold int_range, INT_MIN, INT_MAX; lia).
  assert (Hne : 48 <> sizeof_ev) by (unfold sizeof_ev, sizeof_input_event; lia).
  split; [exact Hr|]. split; [exact Hne|].
  destruct (partial_write_is_fatal [] (engine_start false) 48
              [TimerTick sizeof_ev; KeyboardEvent (InputEvent EV_KEY KEY_KP8 1)]
              [TimerTick sizeof_ev; KeyboardEvent (InputEvent EV_KEY KEY_KP8 1)]
              Hr Hne) as (_ & _ & _ & Hrun).
  exact (Hrun _ _ eq_refl).
Defined.

(** ** The tick under concurrent dispatch *)

Module InterleavedFacts.
Import Interleaved.

Lemma exec_quiet {A} (p : tick A) :
  forall n g, exec p (replicate n []) g = exec p [] g.
Proof.
  induction p as [a | i k IH | i k IH | i k IH]; intros n g.
  - reflexivity.
  - destruct n as [|n]; [reflexivity|]. cbn. apply IH.
  - destruct n as [|n]; [reflexivity|]. cbn. apply IH.
  - destruct n as [|n]; [reflexivity|]. cbn. apply IH.
Qed.

Lemma exec_bind_quiet {A B} (p : tick A) (f : A -> tick B) :
  forall g,
    exec (bind p f) [] g =
    match exec p [] g with
    | Done (g', a) => exec (f a) [] g'
    | Fatal l => Fatal l
    end.
Proof.
  induction p as [a | i k IH | i k IH | i k IH]; intros g; cbn.
  - reflexivity.
  - apply IH.
  - apply IH.
  - apply IH.
Qed.

(** With no record dispatched meanwhile, the loop of [incMoveTimes]
    run access by access is the loop run in one go. *)
Lemma incMoveTimes_loop_quiet (indices : list Z) :
  forall g,
    exec (for_each (fun i _ =>
                      LoadIsMoving i (fun moving =>
                        if moving then IncMoveTimes i (Ret tt) else Ret tt))
                   indices tt) [] g =
    Done (foldl (fun g i =>
                   if array_get (isMoving g) i
                   then set_moveTimes i (wrap_int (array_get (moveTimes g) i + 1)) g
                   else g) g indices, tt).
Proof.
  induction indices as [|i rest IH]; intros g; [reflexivity|].
  cbn [for_each foldl]. rewrite exec_bind_quiet.
  cbn [exec hd tl dispatch mbind outcome_bind].
  destruct (array_get (isMoving g) i);
    cbn [exec hd tl dispatch mbind outcome_bind]; apply IH.
Qed.

Lemma calcMoveSteps_loop_quiet (indices : list Z) :
  forall g steps,
    exec (for_each (fun i steps =>
                      LoadIsMoving i (fun moving =>
                        if moving
                        then LoadMoveTimes i (fun t =>
                               Ret (array_set steps i (moveStep t)))
                        else Ret steps))
                   indices steps) [] g =
    Done (g, foldl (fun steps i =>
                      if array_get (isMoving g) i
                      then array_set steps i (moveStep (array_get (moveTimes g) i))
                      else steps) steps indices).
Proof.
  induction indices as [|i rest IH]; intros g steps; [reflexivity|].
  cbn [for_each foldl]. rewrite exec_bind_quiet.
  cbn [exec hd tl dispatch mbind outcome_bind].
  destruct (array_get (isMoving g) i);
    cbn [exec hd tl dispatch mbind outcome_bind]; apply IH.
Qed.

Lemma calcMoveSteps_quiet (g : globals) (steps : list Z) :
  exec (calcMoveSteps_thread steps) [] g = Done (g, calcMoveSteps g steps).
Proof.
  unfold calcMoveSteps_thread, calcMoveSteps.
  change (exec (bind ?p ?f) [] g) with (exec (bind p f) [] g).
  unfold mbind, tick_bind.
  rewrite exec_bind_quiet, calcMoveSteps_loop_quiet.
  rewrite exec_bind_quiet.
  cbn [exec hd tl dispatch mbind outcome_bind].
  destruct (array_get (isMoving g) UP);
    cbn [exec hd tl dispatch mbind outcome_bind andb];
    [destruct (array_get (isMoving g) DOWN);
       cbn [exec hd tl dispatch mbind outcome_bind andb]|];
    (destruct (array_get (isMoving g) LEFT);
       cbn [exec hd tl dispatch mbind outcome_bind andb];
       [destruct (array_get (isMoving g) RIGHT);
          cbn [exec hd tl dispatch mbind outcome_bind andb]|]);
    reflexivity.
Qed.

(** No state of the globals makes [calcMoveSteps] leave a step in both
    [steps[UP]] and [steps[DOWN]]. *)
Lemma calcMoveSteps_not_both (snapshot : globals) :
  let steps := calcMoveSteps snapshot (replicate (Z.to_nat DIRECTION_NUM) 0) in
  array_get steps UP = 0 \/ array_get steps DOWN = 0.
Proof.
  cbv zeta. unfold calcMoveSteps.
  change directions with [UP; DOWN; LEFT; RIGHT].
  change (replicate (Z.to_nat DIRECTION_NUM) 0) with [0; 0; 0; 0].
  cbn [foldl].
  generalize (moveStep (array_get (moveTimes snapshot) UP)).
  generalize (moveStep (array_get (moveTimes snapshot) DOWN)).
  generalize (moveStep (array_get (moveTimes snapshot) LEFT)).
  generalize (moveStep (array_get (moveTimes snapshot) RIGHT)).
  generalize (array_get (isMoving snapshot) UP).
  generalize (array_get (isMoving snapshot) DOWN).
  generalize (array_get (isMoving snapshot) LEFT).
  generalize (array_get (isMoving snapshot) RIGHT).
  intros [] [] [] [] ? ? ? ?; cbn; auto.
Qed.

End InterleavedFacts.

(** The invariant of the undivided runs does not survive interleaving:
    Up is held (the end of a run); the tick has read [isMoving[UP]] as true
    when the dispatch loop handles the release of Up (flag cleared, count
    reset); the tick's increment then leaves an inactive direction with
    a hold count of 1. *)
Lemma release_during_increment :
  let g := Globals false [true; false; false; false] [5; 0; 0; 0] in
  let release_up := InputEvent EV_KEY KEY_KP8 0 in
  let g_after := Globals false [false; false; false; false] [1; 0; 0; 0] in
  snd (run (KeyboardEvent (InputEvent EV_KEY KEY_KP8 1)
            :: replicate 5 (TimerTick sizeof_ev)) (engine_start false))
    = Done g
  /\ Interleaved.exec Interleaved.moveMouse_thread [[]; [release_up]] g
     = Done (g_after, [0; 0; 0; 0])
  /\ ~ engine_invariant g_after.
Proof.
  cbv zeta. split; [|split].
  - vm_compute. reflexivity.
  - vm_compute. reflexivity.
  - intros Hinv. apply engine_invariant_cells in Hinv.
    destruct Hinv as ((H0 & _) & _). specialize (H0 eq_refl). discriminate H0.
Qed.

(** C9 (as stated) fails.  Up and Down are both held; the tick reads both
    hold counts (steps 10 and 1); the dispatch loop then handles the
    release of Down; the tick's test [isMoving[UP] && isMoving[DOWN]] now
    fails and nothing is cancelled.  The tick emits a vertical delta of
    -9: not the 0 of the state before the release, not the -10 of the
    state after it, and its [steps] are those of no state at all. *)
Lemma tick_mixes_states :
  let g := Globals false [true; true; false; false] [300; 10; 0; 0] in
  let release_down := InputEvent EV_KEY KEY_KP2 0 in
  let schedule := replicate 12 [] ++ [[release_down]] in
  let g_after := Globals false [true; false; false; false] [301; 0; 0; 0] in
  let zeros := replicate (Z.to_nat DIRECTION_NUM) 0 in
  Interleaved.exec Interleaved.moveMouse_thread schedule g
    = Done (g_after, [10; 1; 0; 0])
  /\ motion_report [10; 1; 0; 0] !! 1%nat = Some (InputEvent EV_REL REL_Y (-9))
  /\ motion_report (calcMoveSteps (incMoveTimes g) zeros) !! 1%nat
     = Some (InputEvent EV_REL REL_Y 0)
  /\ motion_report (calcMoveSteps g_after zeros) !! 1%nat
     = Some (InputEvent EV_REL REL_Y (-10))
  /\ ~ Interleaved.computes_on_snapshot schedule g.
Proof.
  cbv zeta.
  assert (Hexec :
    Interleaved.exec Interleaved.moveMouse_thread
      (replicate 12 [] ++ [[InputEvent EV_KEY KEY_KP2 0]])
      (Globals false [true; true; false; false] [300; 10; 0; 0])
    = Done (Globals false [true; false; false; false] [301; 0; 0; 0],
            [10; 1; 0; 0])) by (vm_compute; reflexivity).
  split; [exact Hexec|].
  split; [vm_compute; reflexivity|].
  split; [vm_compute; reflexivity|].
  split; [vm_compute; reflexivity|].
  intros Hsnap. destruct (Hsnap _ _ Hexec) as [snapshot Hsteps].
  destruct (InterleavedFacts.calcMoveSteps_not_both snapshot) as [H|H];
    rewrite <- Hsteps in H; discriminate H.
Qed.

(** C9 (amended). The tick takes no snapshot: it reads the shared cells in
    place.  When the dispatch loop handles no record during the tick, the
    tick run access by access leaves the globals and computes the steps
    exactly as [incMoveTimes] followed by [calcMoveSteps] do on the state
    the tick started from; that is what [moveMouse] hands to [write]. *)
Theorem quiet_tick_is_atomic (n : nat) (g : globals) (ret : Z) :
  let zeros := replicate (Z.to_nat DIRECTION_NUM) 0 in
  Interleaved.exec Interleaved.moveMouse_thread (replicate n []) g
    = Done (incMoveTimes g, calcMoveSteps (incMoveTimes g) zeros)
  /\ fst (moveMouse ret g) = motion_report (calcMoveSteps (incMoveTimes g) zeros).
Proof.
  cbv zeta. split; [|rewrite moveMouse_unfold; reflexivity].
  rewrite InterleavedFacts.exec_quiet. unfold Interleaved.moveMouse_thread.
  unfold mbind, Interleaved.tick_bind.
  rewrite InterleavedFacts.exec_bind_quiet.
  unfold Interleaved.incMoveTimes_thread.
  rewrite InterleavedFacts.incMoveTimes_loop_quiet.
  apply InterleavedFacts.calcMoveSteps_quiet.
Qed.



(** ** Capability bitmaps *)

Lemma land_shiftr_1 (a k : Z) :
  0 <= k -> (Z.land (Z.shiftr a k) 1 =? 1) = Z.testbit a k.
Proof.
  intros Hk. change 1 with (Z.ones 1) at 1.
  rewrite Z.land_ones by lia. rewrite <- Z.bit0_mod.
  rewrite Z.shiftr_spec by lia. rewrite Z.add_0_l.
  destruct (Z.testbit a k); reflexivity.
Qed.

Lemma testBits_word (bit : Z) (array : list Z) :
  0 <= bit ->
  testBits bit array =
  Z.testbit (array_get array (bit / BITS_PER_LONG)) (bit mod BITS_PER_LONG).
Proof.
  intros Hbit. unfold testBits, BITS_PER_LONG.
  rewrite Z.quot_div_nonneg, Z.rem_mod_nonneg by lia.
  apply land_shiftr_1. apply Z.mod_pos_bound. lia.
Qed.

Lemma bitmap_value_low (w rest bit : Z) :
  0 <= w < 2 ^ BITS_PER_LONG -> 0 <= bit < BITS_PER_LONG ->
  Z.testbit (w + 2 ^ BITS_PER_LONG * rest) bit = Z.testbit w bit.
Proof.
  intros Hw Hbit.
  rewrite <- (Z.mod_pow2_bits_low (w + 2 ^ BITS_PER_LONG * rest) BITS_PER_LONG bit)
    by lia.
  rewrite Z.mul_comm, Z.mod_add by (unfold BITS_PER_LONG; lia).
  rewrite Z.mod_small by assumption. reflexivity.
Qed.

Lemma bitmap_value_high (w rest bit : Z) :
  0 <= w < 2 ^ BITS_PER_LONG -> BITS_PER_LONG <= bit ->
  Z.testbit (w + 2 ^ BITS_PER_LONG * rest) bit
  = Z.testbit rest (bit - BITS_PER_LONG).
Proof.
  intros Hw Hbit.
  replace bit with ((bit - BITS_PER_LONG) + BITS_PER_LONG) at 1 by lia.
  rewrite <- Z.div_pow2_bits by (unfold BITS_PER_LONG in *; lia).
  rewrite Z.mul_comm, Z.div_add by (unfold BITS_PER_LONG; lia).
  rewrite Z.div_small by assumption. reflexivity.
Qed.

(** X1. For [x >= 1], [nbytes x] is the number of [long] words needed for
    [x] bits, no more and no less, so the word [testBits] reads for any
    bit below [x] lies inside an array of [nbytes x] words. *)
Theorem nbytes_words (x : Z) :
  1 <= x ->
  BITS_PER_LONG * (nbytes x - 1) < x <= BITS_PER_LONG * nbytes x
  /\ (forall bit, 0 <= bit < x -> 0 <= Z.quot bit BITS_PER_LONG < nbytes x).
Proof.
  intros Hx. unfold nbytes, BITS_PER_LONG.
  rewrite Z.quot_div_nonneg by lia. split.
  - pose proof (Z.div_mod (x - 1) 64 ltac:(lia)) as Hdm.
    pose proof (Z.mod_pos_bound (x - 1) 64 ltac:(lia)) as Hm. lia.
  - intros bit Hbit. rewrite Z.quot_div_nonneg by lia. split.
    + apply Z.div_pos; lia.
    + assert (bit / 64 <= (x - 1) / 64) by (apply Z.div_le_mono; lia). lia.
Qed.

Lemma nbytes_words_witness :
  nbytes 767 = 12 /\ BITS_PER_LONG * (nbytes 767 - 1) < 767 <= BITS_PER_LONG * nbytes 767
  /\ 0 <= Z.quot KEY_KP2 BITS_PER_LONG < nbytes 767.
Proof.
  split; [reflexivity|].
  destruct (nbytes_words 767 ltac:(lia)) as (Hsize & Hindex).
  split; [exact Hsize|]. apply Hindex. unfold KEY_KP2. lia.
Defined.

(** X2. [testBits] reads the array as one bit string: for a bit inside
    the array it returns that bit of the number whose base-2^64 digits
    are the words, lowest word first. *)
Theorem testBits_reads_bitmap (array : list Z) :
  forall bit : Z,
    Forall unsigned_long array ->
    0 <= bit < BITS_PER_LONG * Z.of_nat (length array) ->
    testBits bit array = Z.testbit (bitmap_value array) bit.
Proof.
  induction array as [|w rest IH]; intros bit Hwords Hbit.
  - cbn in Hbit. lia.
  - apply Forall_cons in Hwords as [Hw Hrest]. unfold unsigned_long in Hw.
    rewrite testBits_word by lia. cbn [bitmap_value].
    destruct (Z.lt_ge_cases bit BITS_PER_LONG) as [Hlow|Hhigh].
    + rewrite bitmap_value_low by lia.
      rewrite Z.div_small, Z.mod_small by lia. reflexivity.
    + rewrite bitmap_value_high by lia.
      rewrite <- IH; [|assumption|rewrite length_cons in Hbit; lia].
      rewrite testBits_word by lia. unfold array_get.
      assert (Hq : bit / BITS_PER_LONG = (bit - BITS_PER_LONG) / BITS_PER_LONG + 1).
      { replace bit with ((bit - BITS_PER_LONG) + 1 * BITS_PER_LONG) at 1 by lia.
        apply Z.div_add. unfold BITS_PER_LONG. lia. }
      assert (Hm : bit mod BITS_PER_LONG = (bit - BITS_PER_LONG) mod BITS_PER_LONG).
      { replace bit with ((bit - BITS_PER_LONG) + 1 * BITS_PER_LONG) at 1 by lia.
        apply Z.mod_add. unfold BITS_PER_LONG. lia. }
      rewrite Hq, Hm.
      assert (0 <= (bit - BITS_PER_LONG) / BITS_PER_LONG)
        by (apply Z.div_pos; unfold BITS_PER_LONG in *; lia).
      rewrite Z2Nat.inj_add by lia. rewrite Nat.add_comm. reflexivity.
Qed.

Lemma testBits_reads_bitmap_witness :
  let keys := [0; 2 ^ 8 + 2 ^ 11 + 2 ^ 13 + 2 ^ 16] in
  testBits KEY_KP8 keys = true /\ testBits KEY_KP2 keys = true
  /\ testBits 79 keys = false
  /\ testBits KEY_KP4 keys = Z.testbit (bitmap_value keys) KEY_KP4.
Proof.
  cbv zeta. split; [reflexivity|]. split; [reflexivity|]. split; [reflexivity|].
  apply (testBits_reads_bitmap [0; 2 ^ 8 + 2 ^ 11 + 2 ^ 13 + 2 ^ 16] KEY_KP4).
  - repeat constructor; unfold BITS_PER_LONG; lia.
  - unfold KEY_KP4, BITS_PER_LONG. cbn. lia.
Defined.

(** ** Device names *)

Lemma char_code_inj (c1 c2 : Ascii.ascii) : char_code c1 = char_code c2 -> c1 = c2.
Proof.
  unfold char_code. intros H. apply N2Z.inj in H.
  rewrite <- (Ascii.ascii_N_embedding c1), <- (Ascii.ascii_N_embedding c2).
  f_equal. exact H.
Qed.

(** [strncmp(p, s, strlen(p)) == 0] says that [p] is a prefix of [s]. *)
Lemma strncmp_prefix (p : string) :
  forall s : string,
    no_nul p ->
    strncmp p s (strlen p) = 0 <-> exists rest, s = p +:+ rest.
Proof.
  induction p as [|c p IH]; intros s Hp.
  - split; [intros _; exists s; reflexivity | reflexivity].
  - destruct Hp as [Hc Hp]. cbn [strlen].
    destruct (Z.eqb_spec (char_code c) 0) as [|_]; [contradiction|].
    cbn [strncmp first_char after_first].
    destruct s as [|d s]; cbn [first_char after_first].
    + destruct (Z.eqb_spec (char_code c) 0) as [|_]; [contradiction|].
      cbn [negb]. split; [lia|]. intros [rest Hrest]. discriminate Hrest.
    + destruct (Z.eqb_spec (char_code c) (char_code d)) as [Heq|Hne]; cbn [negb].
      * apply char_code_inj in Heq. subst d.
        destruct (Z.eqb_spec (char_code c) 0) as [|_]; [contradiction|].
        rewrite IH by assumption. split; intros [rest Hrest]; exists rest.
        -- rewrite Hrest. reflexivity.
        -- change (String c s = String c (p +:+ rest)) in Hrest.
           injection Hrest as Hs. exact Hs.
      * split; [lia|]. intros [rest Hrest].
        change (String d s = String c (p +:+ rest)) in Hrest.
        injection Hrest as Hd _. subst d. contradiction.
Qed.

Lemma isEventDevice_event_name (d_name : string) :
  (isEventDevice d_name = 1 <-> event_name d_name)
  /\ (isEventDevice d_name = 0 <-> ~ event_name d_name).
Proof.
  assert (Hp : no_nul EVENT_DEV_NAME) by (cbn; unfold char_code; cbn; intuition lia).
  pose proof (strncmp_prefix EVENT_DEV_NAME d_name Hp) as Hiff.
  unfold isEventDevice, event_name.
  destruct (Z.eqb_spec (strncmp EVENT_DEV_NAME d_name (strlen EVENT_DEV_NAME)) 0)
    as [H0|H0].
  - split; split; try discriminate; try (intros _; reflexivity).
    + intros _. apply Hiff, H0.
    + intros Hno. exfalso. apply Hno, Hiff, H0.
  - split; split; try discriminate; try (intros _; reflexivity).
    + intros Hyes. exfalso. apply H0, Hiff, Hyes.
    + intros _ Hyes. apply H0, Hiff, Hyes.
Qed.

(** X3. [isEventDevice] answers 1 exactly for the directory entries whose
    name starts with "event", and 0 for every other name (shorter names
    included). *)
Theorem isEventDevice_prefix (d_name : string) :
  (isEventDevice d_name = 1 <-> exists rest, d_name = "event" +:+ rest)
  /\ (isEventDevice d_name = 0 <-> ~ exists rest, d_name = "event" +:+ rest).
Proof. apply isEventDevice_event_name. Qed.

(** ** Reading a keyboard *)

Lemma dispatch_total (batch : list input_event) :
  forall g, exists g', Interleaved.dispatch batch g = Done g'.
Proof.
  induction batch as [|ev rest IH]; intros g; [eexists; reflexivity|].
  cbn [Interleaved.dispatch]. destruct (handleEvent_total ev g) as [g1 ->].
  apply IH.
Qed.

Lemma dispatch_invariant (batch : list input_event) :
  forall g g', engine_invariant g -> Interleaved.dispatch batch g = Done g' ->
               engine_invariant g'.
Proof.
  induction batch as [|ev rest IH]; intros g g' Hinv Hrun.
  - injection Hrun as <-. assumption.
  - cbn [Interleaved.dispatch] in Hrun.
    destruct (handleEvent ev g) as [g1|l] eqn:Hev; [|discriminate].
    eapply IH; [|exact Hrun]. eapply handleEvent_invariant; eassumption.
Qed.

Lemma for_indices_buffer (k : nat) :
  forall (before ev : list input_event) (g : globals),
    (k <= length ev)%nat ->
    for_indices (fun j g => handleEvent (array_get (before ++ ev) j) g)
                (seqZ (Z.of_nat (length before)) (Z.of_nat k)) g
    = Interleaved.dispatch (take k ev) g.
Proof.
  induction k as [|k IH]; intros before ev g Hk; [reflexivity|].
  destruct ev as [|e ev]; [cbn in Hk; lia|].
  rewrite seqZ_cons by lia. cbn [for_indices take Interleaved.dispatch].
  assert (Hget : array_get (before ++ e :: ev) (Z.of_nat (length before)) = e).
  { unfold array_get. rewrite Nat2Z.id.
    apply list_lookup_total_middle. reflexivity. }
  rewrite Hget.
  destruct (handleEvent e g) as [g1|l]; [|reflexivity].
  cbn [mbind outcome_bind].
  replace (Z.pred (Z.of_nat (S k))) with (Z.of_nat k) by lia.
  replace (Z.succ (Z.of_nat (length before)))
    with (Z.of_nat (length (before ++ [e])))
    by (rewrite length_app; cbn; lia).
  replace (before ++ e :: ev) with ((before ++ [e]) ++ ev)
    by (rewrite <- app_assoc; reflexivity).
  apply IH. cbn in Hk. lia.
Qed.

Lemma wrap_int_small (x : Z) : int_range x -> wrap_int x = x.
Proof.
  unfold int_range, INT_MIN, INT_MAX, wrap_int. intros Hx.
  rewrite Z.mod_small by lia. lia.
Qed.

Lemma wrap_int_range (x : Z) : int_range (wrap_int x).
Proof.
  unfold int_range, INT_MIN, INT_MAX, wrap_int.
  pose proof (Z.mod_pos_bound (x + 2 ^ 31) (2 ^ 32) ltac:(lia)). lia.
Qed.

(** X4. [handleDevice] ends the process at its [ENSURE] (line 340) when
    [read] fails with -1, or returns a byte count that is not a whole
    number of [struct input_event] records; no record is handled. *)
Theorem handleDevice_bad_read (rd : Z) (ev : list input_event) (g : globals) :
  rd = -1 \/ (0 <= rd <= INT_MAX /\ rd mod sizeof_input_event <> 0) ->
  handleDevice rd ev g = Fatal 340.
Proof.
  intros Hrd. unfold handleDevice, ENSURE.
  assert (Hbad : (int_to_size_t rd mod sizeof_input_event =? 0) = false).
  { apply Z.eqb_neq. destruct Hrd as [-> | [Hr Hm]].
    - vm_compute. discriminate.
    - unfold int_to_size_t, SIZE_BITS, INT_MAX in *.
      rewrite (Z.mod_small rd (2 ^ 64)) by lia. assumption. }
  rewrite Hbad. reflexivity.
Qed.

Lemma handleDevice_bad_read_witness :
  handleDevice (-1) [] (engine_start false) = Fatal 340
  /\ handleDevice 40 [InputEvent EV_KEY KEY_KP8 1; InputEvent EV_SYN SYN_REPORT 0]
                  (engine_start false) = Fatal 340.
Proof.
  split.
  - apply (handleDevice_bad_read (-1) [] (engine_start false)). left. reflexivity.
  - apply (handleDevice_bad_read 40). right.
    unfold INT_MAX, sizeof_input_event. split; [lia|]. vm_compute. discriminate.
Defined.

(** X5. When [read] returns [k] whole records ([k] may be 0, as at end of
    file), [handleDevice] handles exactly the first [k] records of the
    buffer, in order, with [handleEvent]; it does not end the process, and
    it keeps the invariant of the engine. *)
Theorem handleDevice_whole_records
    (k : nat) (ev : list input_event) (g : globals) :
  (k <= length ev)%nat -> sizeof_input_event * Z.of_nat k <= INT_MAX ->
  handleDevice (sizeof_input_event * Z.of_nat k) ev g
  = Interleaved.dispatch (take k ev) g
  /\ exists g', handleDevice (sizeof_input_event * Z.of_nat k) ev g = Done g'
                /\ (engine_invariant g -> engine_invariant g').
Proof.
  intros Hk Hmax.
  assert (Heq : handleDevice (sizeof_input_event * Z.of_nat k) ev g
                = Interleaved.dispatch (take k ev) g).
  { unfold handleDevice, ENSURE, int_to_size_t, SIZE_BITS.
    unfold INT_MAX, sizeof_input_event in *.
    rewrite (Z.mod_small (24 * Z.of_nat k)) by lia.
    rewrite Z.mul_comm, Z.mod_mul by lia.
    rewrite Z.div_mul by lia. cbn [Z.eqb mbind outcome_bind].
    rewrite wrap_int_small by (unfold int_range, INT_MIN, INT_MAX; lia).
    apply (for_indices_buffer k [] ev g Hk). }
  split; [exact Heq|]. rewrite Heq.
  destruct (dispatch_total (take k ev) g) as [g' Hg']. exists g'.
  split; [exact Hg'|]. intros Hinv. eapply dispatch_invariant; eassumption.
Qed.

Lemma handleDevice_whole_records_witness :
  let ev := [InputEvent EV_KEY KEY_KP6 1; InputEvent EV_SYN SYN_REPORT 0;
             InputEvent EV_KEY KEY_KP8 1] in
  handleDevice 48 ev (engine_start false)
    = Done (Globals false [false; false; false; true] [0; 0; 0; 0])
  /\ handleDevice 0 ev (engine_start false) = Done (engine_start false).
Proof.
  cbv zeta. split.
  - destruct (handleDevice_whole_records 2
                [InputEvent EV_KEY KEY_KP6 1; InputEvent EV_SYN SYN_REPORT 0;
                 InputEvent EV_KEY KEY_KP8 1] (engine_start false))
      as (Heq & _).
    + cbn. lia.
    + unfold sizeof_input_event, INT_MAX. lia.
    + exact Heq.
  - destruct (handleDevice_whole_records 0
                [InputEvent EV_KEY KEY_KP6 1; InputEvent EV_SYN SYN_REPORT 0;
                 InputEvent EV_KEY KEY_KP8 1] (engine_start false))
      as (Heq & _).
    + cbn. lia.
    + unfold sizeof_input_event, INT_MAX. lia.
    + exact Heq.
Defined.

(** ** What the dispatcher does with each record *)

Lemma key_direction_cases (code : Z) :
  key_direction code = -1 \/ 0 <= key_direction code < DIRECTION_NUM.
Proof.
  unfold key_direction, UP, DOWN, LEFT, RIGHT, DIRECTION_NUM.
  repeat match goal with |- context [if ?c then _ else _] => destruct c end; lia.
Qed.

Lemma handleKeyEvent_open (ev : input_event) (g : globals) :
  numlockOn g = false ->
  handleKeyEvent ev g =
  if negb (key_direction (ev_code ev) =? -1)
  then keyAction (key_direction (ev_code ev)) (ev_value ev) g
  else Done g.
Proof. intros Hopen. unfold handleKeyEvent. rewrite Hopen. reflexivity. Qed.

Lemma keyAction_in_range (index value : Z) (g : globals) :
  0 <= index < DIRECTION_NUM ->
  keyAction index value g =
  Done (if value =? 1 then setIsMoving index 1 g
        else if value =? 0 then setIsMoving index 0 g else g).
Proof.
  intros Hi. unfold keyAction, ENSURE.
  replace ((0 <=? index) && (index <? DIRECTION_NUM)) with true
    by (symmetry; apply andb_true_intro; split;
        [apply Z.leb_le | apply Z.ltb_lt]; lia).
  cbn [mbind outcome_bind mret outcome_ret].
  destruct (value =? 1); [|destruct (value =? 0)]; reflexivity.
Qed.

(** X6. [keyAction] ends the process (line 268) for every index outside
    0..3, yet no record makes the dispatcher reach that: [handleEvent]
    returns normally for every record in every state. *)
Theorem dispatcher_never_fatal (ev : input_event) (g : globals) :
  (exists g', handleEvent ev g = Done g')
  /\ (forall index value,
        ~ 0 <= index < DIRECTION_NUM -> keyAction index value g = Fatal 268).
Proof.
  split; [apply handleEvent_total|].
  intros index value Hout. unfold keyAction, ENSURE.
  replace ((0 <=? index) && (index <? DIRECTION_NUM)) with false; [reflexivity|].
  symmetry. apply andb_false_iff.
  destruct (Z.leb_spec 0 index); [|left; reflexivity].
  right. apply Z.ltb_ge. lia.
Qed.

(** X7. Records the dispatcher ignores: every type other than [EV_KEY]
    and [EV_LED], key events for a code other than the four keypad keys,
    key events whose value is neither 0 nor 1 (autorepeat), and LED
    events for any LED other than NumLock leave the whole state as it
    was. *)
Theorem ignored_records (ev : input_event) (g : globals) :
  (ev_type ev <> EV_KEY /\ ev_type ev <> EV_LED)
  \/ (ev_type ev = EV_KEY /\
      (key_direction (ev_code ev) = -1 \/ (ev_value ev <> 0 /\ ev_value ev <> 1)))
  \/ (ev_type ev = EV_LED /\ ev_code ev <> LED_NUML) ->
  handleEvent ev g = Done g.
Proof.
  intros [[Hk Hl] | [[Hk Hign] | [Hl Hcode]]]; unfold handleEvent.
  - destruct (Z.eqb_spec (ev_type ev) EV_KEY); [contradiction|].
    destruct (Z.eqb_spec (ev_type ev) EV_LED); [contradiction|]. reflexivity.
  - rewrite Hk. cbn [Z.eqb EV_KEY Pos.eqb].
    destruct (numlockOn g) eqn:Hnl;
      [unfold handleKeyEvent; rewrite Hnl; reflexivity|].
    rewrite handleKeyEvent_open by assumption.
    destruct Hign as [Hnone | [H0 H1]].
    + rewrite Hnone. reflexivity.
    + destruct (key_direction_cases (ev_code ev)) as [-> | Hin]; [reflexivity|].
      replace (negb (key_direction (ev_code ev) =? -1)) with true
        by (symmetry; apply negb_true_iff, Z.eqb_neq; lia).
      rewrite keyAction_in_range by assumption.
      destruct (Z.eqb_spec (ev_value ev) 1); [contradiction|].
      destruct (Z.eqb_spec (ev_value ev) 0); [contradiction|]. reflexivity.
  - rewrite Hl. cbn [Z.eqb EV_KEY EV_LED Pos.eqb]. unfold handleLEDEvent.
    destruct (Z.eqb_spec (ev_code ev) LED_NUML); [contradiction|]. reflexivity.
Qed.

Lemma ignored_records_witness :
  let g := Globals false [true; false; false; false] [9; 0; 0; 0] in
  handleEvent (InputEvent EV_KEY KEY_KP8 2) g = Done g
  /\ handleEvent (InputEvent EV_KEY 30 1) g = Done g
  /\ handleEvent (InputEvent EV_LED 1 1) g = Done g
  /\ handleEvent (InputEvent EV_SYN SYN_REPORT 0) g = Done g.
Proof.
  cbv zeta.
  pose (g := Globals false [true; false; false; false] [9; 0; 0; 0]).
  split; [|split; [|split]].
  - apply (ignored_records (InputEvent EV_KEY KEY_KP8 2) g).
    right; left. split; [reflexivity|]. right. cbn. lia.
  - apply (ignored_records (InputEvent EV_KEY 30 1) g).
    right; left. split; [reflexivity|]. left. reflexivity.
  - apply (ignored_records (InputEvent EV_LED 1 1) g).
    right; right. split; [reflexivity|]. cbn. unfold LED_NUML. lia.
  - apply (ignored_records (InputEvent EV_SYN SYN_REPORT 0) g).
    left. cbn. unfold EV_SYN, EV_KEY, EV_LED. lia.
Defined.

(** X8. With [numlockOn] clear, a press (value 1) or release (value 0) of
    one of the four keypad keys changes the cells of its own direction
    only: the flag becomes the value, the hold count is kept on a press
    and zeroed on a release; [numlockOn] and the three other directions
    are untouched. *)
Theorem key_event_effect (ev : input_event) (g : globals) :
  wf_globals g -> numlockOn g = false -> ev_type ev = EV_KEY ->
  key_direction (ev_code ev) <> -1 -> ev_value ev = 0 \/ ev_value ev = 1 ->
  let d := key_direction (ev_code ev) in
  exists g',
    handleEvent ev g = Done g'
    /\ numlockOn g' = false
    /\ array_get (isMoving g') d = (ev_value ev =? 1)
    /\ array_get (moveTimes g') d
       = (if ev_value ev =? 1 then array_get (moveTimes g) d else 0)
    /\ (forall i, 0 <= i < DIRECTION_NUM -> i <> d ->
          array_get (isMoving g') i = array_get (isMoving g) i
          /\ array_get (moveTimes g') i = array_get (moveTimes g) i).
Proof.
  intros Hwf Hopen Hkey Hmapped Hval. cbv zeta.
  destruct (key_direction_cases (ev_code ev)) as [|Hd]; [contradiction|].
  unfold handleEvent. rewrite Hkey. cbn [Z.eqb EV_KEY Pos.eqb].
  rewrite handleKeyEvent_open by assumption.
  replace (negb (key_direction (ev_code ev) =? -1)) with true
    by (symmetry; apply negb_true_iff, Z.eqb_neq; assumption).
  rewrite keyAction_in_range by assumption.
  eexists. split; [reflexivity|].
  cells g Hwf. cbn in Hopen. subst nl.
  generalize dependent (key_direction (ev_code ev)). intros d _ Hd.
  destruct Hval as [-> | ->]; cbn [Z.eqb Pos.eqb];
    each_direction d Hd; (split; [reflexivity|]); (split; [reflexivity|]);
    (split; [reflexivity|]);
    intros i Hi Hne; each_direction i Hi; try contradiction; split; reflexivity.
Qed.

Lemma key_event_effect_witness :
  let g := Globals false [true; false; false; false] [9; 0; 0; 0] in
  exists g',
    handleEvent (InputEvent EV_KEY KEY_KP6 1) g = Done g'
    /\ numlockOn g' = false
    /\ array_get (isMoving g') RIGHT = true
    /\ array_get (moveTimes g') RIGHT = 0
    /\ (forall i, 0 <= i < DIRECTION_NUM -> i <> RIGHT ->
          array_get (isMoving g') i = array_get (isMoving g) i
          /\ array_get (moveTimes g') i = array_get (moveTimes g) i).
Proof.
  cbv zeta.
  apply (key_event_effect (InputEvent EV_KEY KEY_KP6 1)
           (Globals false [true; false; false; false] [9; 0; 0; 0])).
  - split; reflexivity.
  - reflexivity.
  - reflexivity.
  - vm_compute. discriminate.
  - right. reflexivity.
Defined.

(** X9. Presses and releases compose as one expects: a press of a
    direction that is already moving changes nothing at all -- its hold
    count is not restarted -- and no press touches any hold count; a
    second press adds nothing to the first; a release after any write to
    the same direction is that release alone; and writes to two
    different directions commute. *)
Theorem setIsMoving_compose (g : globals) (i j value other : Z) :
  wf_globals g -> 0 <= i < DIRECTION_NUM -> 0 <= j < DIRECTION_NUM -> i <> j ->
  (array_get (isMoving g) i = true -> setIsMoving i 1 g = g)
  /\ moveTimes (setIsMoving i 1 g) = moveTimes g
  /\ setIsMoving i 1 (setIsMoving i 1 g) = setIsMoving i 1 g
  /\ setIsMoving i 0 (setIsMoving i value g) = setIsMoving i 0 g
  /\ setIsMoving i value (setIsMoving j other g)
     = setIsMoving j other (setIsMoving i value g).
Proof.
  intros Hwf Hi Hj Hne. cells g Hwf. split.
  { intros Hheld.
    each_direction i Hi;
      [change (m0 = true) in Hheld | change (m1 = true) in Hheld
      | change (m2 = true) in Hheld | change (m3 = true) in Hheld];
      subst; reflexivity. }
  split.
  { each_direction i Hi; reflexivity. }
  unfold setIsMoving, int_to_bool.
  destruct (value =? 0), (other =? 0); cbn [negb];
    each_direction i Hi; each_direction j Hj; try contradiction;
    repeat split.
Qed.

Lemma setIsMoving_compose_witness :
  let g := Globals false [true; false; false; false] [9; 0; 0; 0] in
  setIsMoving UP 1 g = g
  /\ array_get (moveTimes (setIsMoving UP 1 g)) UP = 9
  /\ setIsMoving UP 1 (setIsMoving UP 1 g) = setIsMoving UP 1 g
  /\ setIsMoving UP 0 (setIsMoving UP 1 g) = setIsMoving UP 0 g
  /\ setIsMoving UP 1 (setIsMoving LEFT 0 g)
     = setIsMoving LEFT 0 (setIsMoving UP 1 g).
Proof.
  cbv zeta.
  pose (g := Globals false [true; false; false; false] [9; 0; 0; 0]).
  assert (Hwf : wf_globals g) by (split; reflexivity).
  assert (Hup : 0 <= UP < DIRECTION_NUM) by (unfold UP, DIRECTION_NUM; lia).
  assert (Hleft : 0 <= LEFT < DIRECTION_NUM) by (unfold LEFT, DIRECTION_NUM; lia).
  assert (Hne : UP <> LEFT) by (unfold UP, LEFT; lia).
  destruct (setIsMoving_compose g UP LEFT 1 0 Hwf Hup Hleft Hne)
    as (Hheld & Hcounts & Hidem & Hrelease & Hcomm).
  split; [exact (Hheld eq_refl)|].
  split; [exact (f_equal (fun counts => array_get counts UP) Hcounts)|].
  split; [exact Hidem|]. split; [exact Hrelease | exact Hcomm].
Defined.

(** ** Ticks *)

Lemma wrap_int_add (a b : Z) : wrap_int (wrap_int a + b) = wrap_int (a + b).
Proof.
  unfold wrap_int. f_equal.
  replace ((a + 2 ^ 31) mod 2 ^ 32 - 2 ^ 31 + b + 2 ^ 31)
    with ((a + 2 ^ 31) mod 2 ^ 32 + b) by lia.
  rewrite Z.add_mod_idemp_l by lia. f_equal. lia.
Qed.

Lemma int_counts_cells nl m0 m1 m2 m3 t0 t1 t2 t3 :
  int_counts (Globals nl [m0; m1; m2; m3] [t0; t1; t2; t3]) <->
  int_range t0 /\ int_range t1 /\ int_range t2 /\ int_range t3.
Proof.
  unfold int_counts. cbn [moveTimes]. split.
  - intros H. repeat (apply Forall_cons in H as [? H]). auto.
  - intros (H0 & H1 & H2 & H3).
    constructor; [assumption|]. constructor; [assumption|].
    constructor; [assumption|]. constructor; [assumption|]. constructor.
Qed.

Lemma incMoveTimes_after_ticks (g : globals) :
  wf_globals g -> incMoveTimes g = after_ticks 1 g.
Proof. intros Hwf. cells g Hwf. apply incMoveTimes_cells. Qed.

Lemma after_ticks_wf (k : Z) (g : globals) :
  wf_globals g -> wf_globals (after_ticks k g).
Proof. intros Hwf. cells g Hwf. split; reflexivity. Qed.

Lemma after_ticks_0 (g : globals) :
  wf_globals g -> int_counts g -> after_ticks 0 g = g.
Proof.
  intros Hwf Hint. cells g Hwf. apply int_counts_cells in Hint.
  destruct Hint as (H0 & H1 & H2 & H3). unfold after_ticks. cbn.
  rewrite !Z.add_0_r, !wrap_int_small by assumption.
  destruct m0, m1, m2, m3; reflexivity.
Qed.

Lemma after_ticks_add (a b : Z) (g : globals) :
  wf_globals g -> after_ticks b (after_ticks a g) = after_ticks (a + b) g.
Proof.
  intros Hwf. cells g Hwf. unfold after_ticks. cbn.
  destruct m0, m1, m2, m3; rewrite ?wrap_int_add, ?Z.add_assoc; reflexivity.
Qed.

Lemma full_write_sizeof_ev : full_write sizeof_ev = true.
Proof. reflexivity. Qed.

(** A run of [n] ticks whose writes all succeed, with no record handled
    in between. *)
Lemma run_ticks (n : nat) :
  forall g,
    wf_globals g -> int_counts g ->
    run (replicate n (TimerTick sizeof_ev)) g =
    (map (fun k => motion_report
                     (calcMoveSteps (after_ticks k g)
                                    (replicate (Z.to_nat DIRECTION_NUM) 0)))
         (seqZ 1 (Z.of_nat n)),
     Done (after_ticks (Z.of_nat n) g)).
Proof.
  induction n as [|n IH]; intros g Hwf Hint.
  - cbn [replicate]. rewrite run_nil, after_ticks_0 by assumption. reflexivity.
  - cbn [replicate]. rewrite run_tick, full_write_sizeof_ev. cbv zeta.
    rewrite incMoveTimes_after_ticks by assumption.
    rewrite IH.
    + cbn [fst snd]. rewrite after_ticks_add by assumption.
      rewrite (seqZ_cons 1 (Z.of_nat (S n))) by lia. cbn [map].
      replace (Z.pred (Z.of_nat (S n))) with (Z.of_nat n) by lia.
      replace (1 + Z.of_nat n) with (Z.of_nat (S n)) by lia.
      f_equal. f_equal.
      change (Z.succ 1) with (1 + 1). rewrite <- fmap_add_seqZ.
      change (Z.add 1 <$> seqZ 1 (Z.of_nat n)) with (map (Z.add 1) (seqZ 1 (Z.of_nat n))).
      rewrite map_map. apply map_ext. intros k.
      rewrite after_ticks_add by assumption. reflexivity.
    + apply after_ticks_wf. assumption.
    + cells g Hwf. apply int_counts_cells in Hint.
      destruct Hint as (H0 & H1 & H2 & H3). unfold after_ticks. cbn.
      apply int_counts_cells.
      destruct m0, m1, m2, m3; (split; [|split; [|split]]);
        first [apply wrap_int_range | assumption].
Qed.

Lemma after_ticks_cell (k : Z) (g : globals) (i : Z) :
  wf_globals g -> 0 <= i < DIRECTION_NUM ->
  array_get (isMoving (after_ticks k g)) i = array_get (isMoving g) i
  /\ array_get (moveTimes (after_ticks k g)) i
     = (if array_get (isMoving g) i
        then wrap_int (array_get (moveTimes g) i + k)
        else array_get (moveTimes g) i).
Proof.
  intros Hwf Hi. cells g Hwf. each_direction i Hi; split; reflexivity.
Qed.

Lemma int_counts_cell (g : globals) (i : Z) :
  wf_globals g -> int_counts g -> 0 <= i < DIRECTION_NUM ->
  int_range (array_get (moveTimes g) i).
Proof.
  intros Hwf Hint Hi. cells g Hwf. apply int_counts_cells in Hint.
  each_direction i Hi; cbn; tauto.
Qed.

(** X10. After [n] ticks with no record handled in between, [numlockOn]
    and the flags are as before, a direction that is not moving has its
    old hold count, and a moving one has been counted [n] times: its
    count is the old one plus [n], as long as that fits an [int]. *)
Theorem hold_count_after_ticks (n : nat) (g : globals) (i : Z) :
  wf_globals g -> int_counts g -> 0 <= i < DIRECTION_NUM ->
  exists written g',
    run (replicate n (TimerTick sizeof_ev)) g = (written, Done g')
    /\ length written = n
    /\ numlockOn g' = numlockOn g /\ isMoving g' = isMoving g
    /\ (array_get (isMoving g) i = false ->
        array_get (moveTimes g') i = array_get (moveTimes g) i)
    /\ (array_get (isMoving g) i = true ->
        array_get (moveTimes g) i + Z.of_nat n <= INT_MAX ->
        array_get (moveTimes g') i = array_get (moveTimes g) i + Z.of_nat n).
Proof.
  intros Hwf Hint Hi. eexists. eexists.
  split; [apply run_ticks; assumption|].
  split; [rewrite length_map, length_seqZ; lia|].
  split; [reflexivity|]. split; [reflexivity|].
  destruct (after_ticks_cell (Z.of_nat n) g i Hwf Hi) as (_ & Hcount).
  pose proof (int_counts_cell g i Hwf Hint Hi) as Hrange.
  rewrite Hcount. split; intros ->; [reflexivity|].
  intros Hfit. apply wrap_int_small.
  unfold int_range, INT_MIN, INT_MAX in *. lia.
Qed.

Lemma hold_count_after_ticks_witness :
  let g := Globals false [true; false; false; false] [3; 0; 0; 0] in
  exists written g',
    run (replicate 4 (TimerTick sizeof_ev)) g = (written, Done g')
    /\ length written = 4%nat
    /\ numlockOn g' = numlockOn g /\ isMoving g' = isMoving g
    /\ (array_get (isMoving g) UP = false ->
        array_get (moveTimes g') UP = array_get (moveTimes g) UP)
    /\ (array_get (isMoving g) UP = true ->
        array_get (moveTimes g) UP + Z.of_nat 4 <= INT_MAX ->
        array_get (moveTimes g') UP = array_get (moveTimes g) UP + Z.of_nat 4).
Proof.
  cbv zeta.
  apply (hold_count_after_ticks 4
           (Globals false [true; false; false; false] [3; 0; 0; 0]) UP).
  - split; reflexivity.
  - apply int_counts_cells. unfold int_range, INT_MIN, INT_MAX. lia.
  - unfold UP, DIRECTION_NUM. lia.
Defined.

(** X11. A hold count that passes [INT_MAX] wraps to the negative end of
    [int]: when a moving direction's count plus the [n] ticks run lies
    above [INT_MAX] (and at most [2^32 + MIN_POINT]), the count after the
    run is that sum minus [2^32], and its step is back to [MIN_STEP]. *)
Theorem hold_count_overflow (n : nat) (g : globals) (i : Z) :
  wf_globals g -> int_counts g -> 0 <= i < DIRECTION_NUM ->
  array_get (isMoving g) i = true ->
  INT_MAX < array_get (moveTimes g) i + Z.of_nat n <= 2 ^ 32 + MIN_POINT ->
  exists written g',
    run (replicate n (TimerTick sizeof_ev)) g = (written, Done g')
    /\ array_get (moveTimes g') i
       = array_get (moveTimes g) i + Z.of_nat n - 2 ^ 32
    /\ moveStep (array_get (moveTimes g') i) = MIN_STEP.
Proof.
  intros Hwf Hint Hi Hmoving Hover. eexists. eexists.
  split; [apply run_ticks; assumption|].
  destruct (after_ticks_cell (Z.of_nat n) g i Hwf Hi) as (_ & Hcount).
  rewrite Hcount, Hmoving.
  assert (Hwrap : wrap_int (array_get (moveTimes g) i + Z.of_nat n)
                  = array_get (moveTimes g) i + Z.of_nat n - 2 ^ 32).
  { unfold wrap_int, INT_MAX, MIN_POINT in *.
    rewrite <- (Z.mod_add _ (-1) (2 ^ 32)) by lia.
    rewrite Z.mod_small by lia. lia. }
  rewrite Hwrap. split; [reflexivity|].
  apply moveStep_below. unfold MIN_POINT in *. lia.
Qed.

Lemma hold_count_overflow_witness :
  let g := Globals false [false; false; false; true] [0; 0; 0; INT_MAX] in
  moveStep INT_MAX = MAX_STEP
  /\ exists written g',
       run (replicate 1 (TimerTick sizeof_ev)) g = (written, Done g')
       /\ array_get (moveTimes g') RIGHT
          = array_get (moveTimes g) RIGHT + Z.of_nat 1 - 2 ^ 32
       /\ moveStep (array_get (moveTimes g') RIGHT) = MIN_STEP.
Proof.
  cbv zeta. split; [vm_compute; reflexivity|].
  apply (hold_count_overflow 1
           (Globals false [false; false; false; true] [0; 0; 0; INT_MAX]) RIGHT).
  - split; reflexivity.
  - apply int_counts_cells. unfold int_range, INT_MIN, INT_MAX. lia.
  - unfold RIGHT, DIRECTION_NUM. lia.
  - reflexivity.
  - vm_compute. split; [reflexivity | discriminate].
Defined.

(** ** The states the two threads reach *)

Lemma exec_moveMouse_quiet (g : globals) :
  Interleaved.exec Interleaved.moveMouse_thread [] g
  = Done (incMoveTimes g,
          calcMoveSteps (incMoveTimes g) (replicate (Z.to_nat DIRECTION_NUM) 0)).
Proof.
  unfold Interleaved.moveMouse_thread, mbind, Interleaved.tick_bind.
  rewrite InterleavedFacts.exec_bind_quiet.
  unfold Interleaved.incMoveTimes_thread.
  rewrite InterleavedFacts.incMoveTimes_loop_quiet.
  apply InterleavedFacts.calcMoveSteps_quiet.
Qed.

Lemma dispatch_reachable (p : Interleaved.tick (list Z))
    (batch : list input_event) :
  forall g g',
    reachable_config p g -> Interleaved.dispatch batch g = Done g' ->
    reachable_config p g'.
Proof.
  induction batch as [|ev rest IH]; intros g g' Hreach Hrun.
  - injection Hrun as <-. assumption.
  - cbn [Interleaved.dispatch] in Hrun.
    destruct (handleEvent ev g) as [g1|l] eqn:Hev; [|discriminate].
    eapply IH; [|exact Hrun]. eapply reach_record; eassumption.
Qed.

(** A tick run against a schedule goes through reachable states only. *)
Lemma exec_reachable (p : Interleaved.tick (list Z)) :
  forall schedule g g' steps,
    reachable_config p g ->
    Interleaved.exec p schedule g = Done (g', steps) ->
    reachable_config (Interleaved.Ret steps) g'.
Proof.
  induction p as [a | i k IH | i k IH | i k IH];
    intros schedule g g' steps Hreach Hexec; cbn [Interleaved.exec] in Hexec.
  - injection Hexec as <- <-. assumption.
  - destruct (Interleaved.dispatch (hd [] schedule) g) as [g1|l] eqn:Hd;
      [|discriminate].
    eapply IH; [|exact Hexec].
    apply (reach_access (Interleaved.LoadIsMoving i k) g1).
    eapply dispatch_reachable; eassumption.
  - destruct (Interleaved.dispatch (hd [] schedule) g) as [g1|l] eqn:Hd;
      [|discriminate].
    eapply IH; [|exact Hexec].
    apply (reach_access (Interleaved.LoadMoveTimes i k) g1).
    eapply dispatch_reachable; eassumption.
  - destruct (Interleaved.dispatch (hd [] schedule) g) as [g1|l] eqn:Hd;
      [|discriminate].
    eapply IH; [|exact Hexec].
    apply (reach_access (Interleaved.IncMoveTimes i k) g1).
    eapply dispatch_reachable; eassumption.
Qed.

(** The undivided runs are among the executions of the two threads. *)
Lemma run_reachable (inputs : list input) :
  forall g written g',
    reachable_config Interleaved.moveMouse_thread g ->
    run inputs g = (written, Done g') ->
    reachable_config Interleaved.moveMouse_thread g'.
Proof.
  induction inputs as [|[ev|ret] rest IH]; intros g written g' Hreach Hrun.
  - rewrite run_nil in Hrun. injection Hrun as _ <-. assumption.
  - rewrite run_event in Hrun.
    destruct (handleEvent ev g) as [g1|l] eqn:Hev; [|discriminate].
    eapply IH; [|exact Hrun]. eapply reach_record; eassumption.
  - rewrite run_tick in Hrun. cbv zeta in Hrun.
    destruct (full_write ret); [|discriminate].
    destruct (run rest (incMoveTimes g)) as [w o] eqn:Hrest.
    cbn [fst snd] in Hrun. injection Hrun as _ ->.
    eapply IH; [|exact Hrest].
    eapply reach_next_tick, exec_reachable; [exact Hreach|].
    apply exec_moveMouse_quiet.
Qed.

Lemma run_start_reachable (queryNumlock : bool) (inputs : list input)
    (written : list (list input_event)) (g : globals) :
  run inputs (engine_start queryNumlock) = (written, Done g) -> reachable g.
Proof.
  intros Hrun. exists Interleaved.moveMouse_thread.
  eapply run_reachable; [apply reach_start | exact Hrun].
Qed.

Lemma idle_counts_cells (allowed : Z -> Z -> Prop) nl m0 m1 m2 m3 t0 t1 t2 t3 :
  idle_counts allowed (Globals nl [m0; m1; m2; m3] [t0; t1; t2; t3]) <->
  ((m0 = false -> allowed UP t0) /\ (m1 = false -> allowed DOWN t1) /\
   (m2 = false -> allowed LEFT t2) /\ (m3 = false -> allowed RIGHT t3)) /\
  (nl = true -> m0 = false /\ m1 = false /\ m2 = false /\ m3 = false).
Proof.
  unfold idle_counts. split.
  - intros (_ & Hhold & Hgate). split.
    + repeat split.
      * apply (Hhold UP). unfold UP, DIRECTION_NUM; lia.
      * apply (Hhold DOWN). unfold DOWN, DIRECTION_NUM; lia.
      * apply (Hhold LEFT). unfold LEFT, DIRECTION_NUM; lia.
      * apply (Hhold RIGHT). unfold RIGHT, DIRECTION_NUM; lia.
    + intros Hnl. specialize (Hgate Hnl). repeat split.
      * apply (Hgate UP). unfold UP, DIRECTION_NUM; lia.
      * apply (Hgate DOWN). unfold DOWN, DIRECTION_NUM; lia.
      * apply (Hgate LEFT). unfold LEFT, DIRECTION_NUM; lia.
      * apply (Hgate RIGHT). unfold RIGHT, DIRECTION_NUM; lia.
  - intros ((H0 & H1 & H2 & H3) & Hgate). split; [apply wf_cells|]. split.
    + intros i Hi. each_direction i Hi; cbn; assumption.
    + intros Hnl i Hi. destruct (Hgate Hnl) as (G0 & G1 & G2 & G3).
      each_direction i Hi; cbn; assumption.
Qed.

Lemma setIsMoving_idle (allowed : Z -> Z -> Prop) (index value : Z)
    (g : globals) :
  (forall i, allowed i 0) ->
  0 <= index < DIRECTION_NUM -> numlockOn g = false \/ value = 0 ->
  idle_counts allowed g -> idle_counts allowed (setIsMoving index value g).
Proof.
  intros Hzero Hi Hopen Hinv. destruct (Hinv) as (Hwf & _). cells g Hwf.
  apply idle_counts_cells in Hinv.
  destruct Hinv as ((H0 & H1 & H2 & H3) & Hgate).
  pose proof (Hzero UP). pose proof (Hzero DOWN).
  pose proof (Hzero LEFT). pose proof (Hzero RIGHT).
  unfold setIsMoving, int_to_bool.
  destruct (Z.eqb_spec value 0) as [->|Hv]; cbn [negb].
  - each_direction index Hi; cbn; apply idle_counts_cells; cbn;
      intuition congruence.
  - destruct Hopen as [Hopen|]; [|contradiction]. cbn in Hopen. subst nl.
    each_direction index Hi; cbn; apply idle_counts_cells; cbn;
      intuition congruence.
Qed.

Lemma handleEvent_idle (allowed : Z -> Z -> Prop) (ev : input_event)
    (g g' : globals) :
  (forall i, allowed i 0) ->
  idle_counts allowed g -> handleEvent ev g = Done g' ->
  idle_counts allowed g'.
Proof.
  intros Hzero Hinv. unfold handleEvent.
  destruct (ev_type ev =? EV_KEY).
  - unfold handleKeyEvent.
    destruct (numlockOn g) eqn:Hnl; [intros [= <-]; assumption|].
    assert (Hkey : forall index, 0 <= index < DIRECTION_NUM ->
              keyAction index (ev_value ev) g = Done g' ->
              idle_counts allowed g').
    { intros index Hi. rewrite keyAction_in_range by assumption.
      destruct (ev_value ev =? 1); [|destruct (ev_value ev =? 0)];
        intros [= <-]; try assumption;
        apply setIsMoving_idle; auto. }
    destruct (ev_code ev =? KEY_KP8); [apply Hkey; unfold UP, DIRECTION_NUM; lia|].
    destruct (ev_code ev =? KEY_KP2); [apply Hkey; unfold DOWN, DIRECTION_NUM; lia|].
    destruct (ev_code ev =? KEY_KP4); [apply Hkey; unfold LEFT, DIRECTION_NUM; lia|].
    destruct (ev_code ev =? KEY_KP6); [apply Hkey; unfold RIGHT, DIRECTION_NUM; lia|].
    cbn. intros [= <-]. assumption.
  - destruct (ev_type ev =? EV_LED); intros [= <-]; [|assumption].
    destruct (Hinv) as (Hwf & _). cells g Hwf.
    apply idle_counts_cells in Hinv.
    destruct Hinv as ((H0 & H1 & H2 & H3) & Hgate).
    pose proof (Hzero UP). pose proof (Hzero DOWN).
    pose proof (Hzero LEFT). pose proof (Hzero RIGHT).
    unfold handleLEDEvent.
    destruct (ev_code ev =? LED_NUML); [|apply idle_counts_cells; tauto].
    destruct (ev_value ev =? 0).
    { apply idle_counts_cells. split; [tauto|discriminate]. }
    destruct (ev_value ev =? 1); [|apply idle_counts_cells; tauto].
    cbn. apply idle_counts_cells. tauto.
Qed.

Lemma zero_at_zero (j i : Z) : zero_at j i 0.
Proof. unfold zero_at. destruct (i =? j); auto. Qed.

Lemma zero_or_one_zero (i : Z) : zero_or_one i 0.
Proof. left. reflexivity. Qed.

Lemma idle_zero_at_weaken (j : Z) (g : globals) :
  idle_counts (zero_at j) g -> idle_counts zero_or_one g.
Proof.
  intros (Hwf & Hhold & Hgate). split; [assumption|]. split; [|assumption].
  intros i Hi Hoff. specialize (Hhold i Hi Hoff). unfold zero_at in Hhold.
  destruct (i =? j); [left|]; assumption.
Qed.

(** The flag of [j] read as true: the increment of [moveTimes[j]] may
    follow. *)
Lemma idle_zero_at_moving (j : Z) (g : globals) :
  idle_counts zero_or_one g -> array_get (isMoving g) j = true ->
  idle_counts (zero_at j) g.
Proof.
  intros (Hwf & Hhold & Hgate) Hmoving. split; [assumption|].
  split; [|assumption].
  intros i Hi Hoff. unfold zero_at.
  destruct (Z.eqb_spec i j) as [->|_]; [congruence|]. apply Hhold; assumption.
Qed.

(** The increment itself: a count of 0 left by a release in between
    becomes 1. *)
Lemma increment_idle (j : Z) (g : globals) :
  0 <= j < DIRECTION_NUM -> idle_counts (zero_at j) g ->
  idle_counts zero_or_one
    (set_moveTimes j (wrap_int (array_get (moveTimes g) j + 1)) g).
Proof.
  intros Hj Hinv. destruct (Hinv) as (Hwf & _). cells g Hwf.
  apply idle_counts_cells in Hinv.
  destruct Hinv as ((H0 & H1 & H2 & H3) & Hgate).
  each_direction j Hj; cbn; apply idle_counts_cells;
    unfold zero_at, zero_or_one, UP, DOWN, LEFT, RIGHT in *;
    cbn [Z.eqb Pos.eqb] in *;
    (split; [|exact Hgate]); (split; [|split; [|split]]); intros Hoff;
    first [ exact (H0 Hoff) | exact (H1 Hoff) | exact (H2 Hoff) | exact (H3 Hoff)
          | right;
            first [ rewrite (H0 Hoff) | rewrite (H1 Hoff)
                  | rewrite (H2 Hoff) | rewrite (H3 Hoff) ];
            reflexivity ].
Qed.

Lemma tick_invariant_now {A} (p : Interleaved.tick A) (g : globals) :
  tick_invariant p g -> idle_counts zero_or_one g.
Proof.
  destruct p as [a | i k | i k | i k]; cbn [tick_invariant].
  - auto.
  - intros [H _]. exact H.
  - intros [H _]. exact H.
  - intros [H _]. eapply idle_zero_at_weaken, H.
Qed.

Lemma tick_invariant_record {A} (p : Interleaved.tick A) (ev : input_event)
    (g g' : globals) :
  tick_invariant p g -> handleEvent ev g = Done g' -> tick_invariant p g'.
Proof.
  destruct p as [a | i k | i k | i k]; cbn [tick_invariant].
  - intros H Hev. eapply (handleEvent_idle zero_or_one); eauto using zero_or_one_zero.
  - intros [H Hk] Hev. split; [|exact Hk].
    eapply (handleEvent_idle zero_or_one); eauto using zero_or_one_zero.
  - intros [H Hk] Hev. split; [|exact Hk].
    eapply (handleEvent_idle zero_or_one); eauto using zero_or_one_zero.
  - intros [H Hk] Hev. split; [|exact Hk].
    eapply (handleEvent_idle (zero_at i)); eauto using zero_at_zero.
Qed.

Lemma tick_invariant_access {A} (p : Interleaved.tick A) (g : globals) :
  tick_invariant p g -> tick_invariant (fst (access p g)) (snd (access p g)).
Proof.
  destruct p as [a | i k | i k | i k]; cbn [tick_invariant access fst snd].
  - auto.
  - intros [H Hk]. apply Hk, H.
  - intros [H Hk]. apply Hk, H.
  - intros [H Hk]. apply Hk, H.
Qed.

Lemma tick_invariant_bind {A B} (p : Interleaved.tick A)
    (f : A -> Interleaved.tick B) :
  (forall a g, idle_counts zero_or_one g -> tick_invariant (f a) g) ->
  forall g, tick_invariant p g -> tick_invariant (Interleaved.bind p f) g.
Proof.
  intros Hf. induction p as [a | i k IH | i k IH | i k IH]; intros g;
    cbn [tick_invariant Interleaved.bind].
  - apply Hf.
  - intros [H Hk]. split; [exact H|]. intros g' Hg'. apply IH, Hk, Hg'.
  - intros [H Hk]. split; [exact H|]. intros g' Hg'. apply IH, Hk, Hg'.
  - intros [H Hk]. split; [exact H|]. intros g' Hg'. apply IH, Hk, Hg'.
Qed.

Lemma tick_invariant_for_each {S} (body : Z -> S -> Interleaved.tick S)
    (indices : list Z) :
  (forall i s g, In i indices -> idle_counts zero_or_one g ->
                 tick_invariant (body i s) g) ->
  forall s g, idle_counts zero_or_one g ->
              tick_invariant (Interleaved.for_each body indices s) g.
Proof.
  induction indices as [|i rest IH]; intros Hbody s g Hg;
    cbn [Interleaved.for_each tick_invariant]; [assumption|].
  apply tick_invariant_bind.
  - intros a g' Hg'. apply IH; [|assumption].
    intros j s' g'' Hj. apply Hbody. right. assumption.
  - apply Hbody; [left; reflexivity | assumption].
Qed.

Lemma directions_in_range (i : Z) : In i directions -> 0 <= i < DIRECTION_NUM.
Proof.
  intros Hin. apply list_elem_of_In, elem_of_seqZ in Hin.
  unfold DIRECTION_NUM in *. lia.
Qed.

Lemma moveMouse_thread_invariant (g : globals) :
  idle_counts zero_or_one g -> tick_invariant Interleaved.moveMouse_thread g.
Proof.
  intros Hg.
  unfold Interleaved.moveMouse_thread, mbind, Interleaved.tick_bind.
  apply tick_invariant_bind.
  - intros _ g1 Hg1.
    unfold Interleaved.calcMoveSteps_thread, mbind, Interleaved.tick_bind.
    apply tick_invariant_bind.
    + intros steps g2 Hg2. apply tick_invariant_bind.
      * intros steps' g3 Hg3. cbn [tick_invariant]. split; [exact Hg3|].
        intros g4 Hg4. destruct (array_get (isMoving g4) LEFT);
          cbn [tick_invariant]; [|exact Hg4].
        split; [exact Hg4|]. intros g5 Hg5.
        destruct (array_get (isMoving g5) RIGHT); exact Hg5.
      * cbn [tick_invariant]. split; [exact Hg2|].
        intros g4 Hg4. destruct (array_get (isMoving g4) UP);
          cbn [tick_invariant]; [|exact Hg4].
        split; [exact Hg4|]. intros g5 Hg5.
        destruct (array_get (isMoving g5) DOWN); exact Hg5.
    + apply tick_invariant_for_each; [|exact Hg1].
      intros i steps g2 _ Hg2. cbn [tick_invariant]. split; [exact Hg2|].
      intros g3 Hg3. destruct (array_get (isMoving g3) i);
        cbn [tick_invariant]; [|exact Hg3].
      split; [exact Hg3|]. intros g4 Hg4. exact Hg4.
  - unfold Interleaved.incMoveTimes_thread.
    apply tick_invariant_for_each; [|exact Hg].
    intros i s g1 Hi Hg1. apply directions_in_range in Hi.
    cbn [tick_invariant]. split; [exact Hg1|].
    intros g2 Hg2. destruct (array_get (isMoving g2) i) eqn:Hmoving;
      cbn [tick_invariant]; [|exact Hg2].
    split; [apply idle_zero_at_moving; assumption|].
    intros g3 Hg3. apply increment_idle; assumption.
Qed.

Lemma engine_start_idle (queryNumlock : bool) :
  idle_counts zero_or_one (engine_start queryNumlock).
Proof.
  apply idle_counts_cells. unfold zero_or_one. repeat split; auto.
Qed.

(** Every configuration of the two threads satisfies the invariant. *)
Lemma reachable_config_invariant (p : Interleaved.tick (list Z)) (g : globals) :
  reachable_config p g -> tick_invariant p g.
Proof.
  induction 1 as [nl | p g ev g' _ IH Hev | p g _ IH | steps g _ IH].
  - apply moveMouse_thread_invariant, engine_start_idle.
  - eapply tick_invariant_record; eassumption.
  - apply tick_invariant_access, IH.
  - apply moveMouse_thread_invariant, IH.
Qed.

Lemma reachable_idle (g : globals) : reachable g -> idle_counts zero_or_one g.
Proof.
  intros [p Hreach]. eapply tick_invariant_now, reachable_config_invariant, Hreach.
Qed.


(** X22. In every state the two threads reach -- each record handled as
    a whole, the tick access by access, in any interleaving -- a
    direction that is not moving has a hold count of 0 or 1 (1 being
    what a release handled between a tick's test of the flag and its
    increment leaves), so the first tick after a press still writes the
    step [MIN_STEP]; and while [numlockOn] is set no direction is
    moving. *)
Theorem idle_count_zero_or_one (g : globals) (i : Z) :
  reachable g -> 0 <= i < DIRECTION_NUM ->
  (array_get (isMoving g) i = false ->
   (array_get (moveTimes g) i = 0 \/ array_get (moveTimes g) i = 1)
   /\ moveStep (wrap_int (array_get (moveTimes (setIsMoving i 1 g)) i + 1))
      = MIN_STEP)
  /\ (numlockOn g = true -> array_get (isMoving g) i = false).
Proof.
  intros Hreach Hi. destruct (reachable_idle g Hreach) as (Hwf & Hhold & Hgate).
  split; [|intros Hon; apply Hgate; assumption].
  intros Hoff. pose proof (Hhold i Hi Hoff) as Hcount. split; [exact Hcount|].
  destruct (setIsMoving_press g i Hwf Hi) as (Hkeep & _). rewrite Hkeep.
  destruct Hcount as [-> | ->]; vm_compute; reflexivity.
Qed.

Lemma idle_count_zero_or_one_witness :
  let raced := Globals false [false; false; false; false] [1; 0; 0; 0] in
  (array_get (isMoving raced) UP = false ->
   (array_get (moveTimes raced) UP = 0 \/ array_get (moveTimes raced) UP = 1)
   /\ moveStep (wrap_int (array_get (moveTimes (setIsMoving UP 1 raced)) UP + 1))
      = MIN_STEP)
  /\ (numlockOn raced = true -> array_get (isMoving raced) UP = false).
Proof.
  cbv zeta.
  apply (idle_count_zero_or_one
           (Globals false [false; false; false; false] [1; 0; 0; 0]) UP).
  - exists (Interleaved.Ret [0; 0; 0; 0]).
    apply (exec_reachable Interleaved.moveMouse_thread
             [[]; [InputEvent EV_KEY KEY_KP8 0]]
             (Globals false [true; false; false; false] [5; 0; 0; 0])).
    + apply (run_reachable
               (KeyboardEvent (InputEvent EV_KEY KEY_KP8 1)
                :: replicate 5 (TimerTick sizeof_ev))
               (engine_start false) (replicate 5 (report_of 0 (-1)))).
      * apply reach_start.
      * vm_compute. reflexivity.
    + vm_compute. reflexivity.
  - unfold UP, DIRECTION_NUM. lia.
Defined.

(** ** What a tick writes *)

Lemma tick_report (g : globals) :
  wf_globals g ->
  motion_report (calcMoveSteps (incMoveTimes g)
                               (replicate (Z.to_nat DIRECTION_NUM) 0))
  = report_of (contribution g RIGHT LEFT - contribution g LEFT RIGHT)
              (contribution g DOWN UP - contribution g UP DOWN).
Proof.
  intros Hwf. cells g Hwf. rewrite incMoveTimes_cells.
  change (replicate (Z.to_nat DIRECTION_NUM) 0) with [0; 0; 0; 0].
  rewrite calcMoveSteps_cells. unfold contribution.
  destruct m0, m1, m2, m3; reflexivity.
Qed.

Lemma contribution_bounds (g : globals) (i opposite : Z) :
  0 <= contribution g i opposite <= MAX_STEP.
Proof.
  unfold contribution.
  destruct (array_get (isMoving g) i && negb (array_get (isMoving g) opposite)).
  - pose proof (moveStep_bounds (wrap_int (array_get (moveTimes g) i + 1))).
    unfold MIN_STEP, MAX_STEP in *. lia.
  - unfold MAX_STEP. lia.
Qed.

Lemma setIsMoving_wf (index value : Z) (g : globals) :
  wf_globals g -> wf_globals (setIsMoving index value g).
Proof.
  intros [Hm Ht]. unfold setIsMoving, set_isMoving, set_moveTimes, array_set.
  destruct (negb (int_to_bool value)); split; cbn;
    rewrite ?length_insert; assumption.
Qed.

Lemma handleEvent_wf (ev : input_event) (g g' : globals) :
  wf_globals g -> handleEvent ev g = Done g' -> wf_globals g'.
Proof.
  intros Hwf. unfold handleEvent.
  destruct (ev_type ev =? EV_KEY).
  - unfold handleKeyEvent. destruct (numlockOn g); [intros [= <-]; assumption|].
    destruct (negb _); [|intros [= <-]; assumption].
    unfold keyAction, ENSURE. destruct (_ && _); [|discriminate].
    cbn [mbind outcome_bind mret outcome_ret].
    destruct (ev_value ev =? 1); [|destruct (ev_value ev =? 0)];
      intros [= <-]; try assumption; apply setIsMoving_wf; assumption.
  - destruct (ev_type ev =? EV_LED); intros [= <-]; [|assumption].
    cells g Hwf. unfold handleLEDEvent.
    destruct (ev_code ev =? LED_NUML); [|apply wf_cells].
    destruct (ev_value ev =? 0); [apply wf_cells|].
    destruct (ev_value ev =? 1); apply wf_cells.
Qed.

Lemma incMoveTimes_wf (g : globals) : wf_globals g -> wf_globals (incMoveTimes g).
Proof. intros Hwf. cells g Hwf. rewrite incMoveTimes_cells. apply wf_cells. Qed.

(** X12. One tick in closed form: it writes the report whose horizontal
    delta is the contribution of Right minus that of Left, and whose
    vertical delta is that of Down minus that of Up, where a direction
    contributes the step of its incremented hold count if it moves while
    its opposite does not, and 0 otherwise; it leaves every moving
    direction counted once more, or ends the process if the write is
    short. *)
Theorem tick_closed_form (ret : Z) (g : globals) :
  wf_globals g ->
  moveMouse ret g =
  (report_of (contribution g RIGHT LEFT - contribution g LEFT RIGHT)
             (contribution g DOWN UP - contribution g UP DOWN),
   if full_write ret then Done (after_ticks 1 g) else Fatal 436).
Proof.
  intros Hwf. rewrite moveMouse_unfold, tick_report by assumption.
  rewrite incMoveTimes_after_ticks by assumption. reflexivity.
Qed.

Lemma tick_closed_form_witness :
  moveMouse sizeof_ev (Globals false [false; true; true; true] [0; 124; 7; 7])
  = (report_of 0 5, Done (Globals false [false; true; true; true] [0; 125; 8; 8])).
Proof.
  apply (tick_closed_form sizeof_ev
           (Globals false [false; true; true; true] [0; 124; 7; 7])).
  split; reflexivity.
Defined.

(** X13. Whatever the records and ticks, every report written has the
    shape [REL_X x; REL_Y y; SYN_REPORT] with both deltas between
    [-MAX_STEP] and [MAX_STEP]. *)
Theorem reports_are_bounded (inputs : list input) :
  forall g : globals,
    wf_globals g -> Forall bounded_report (fst (run inputs g)).
Proof.
  induction inputs as [|[ev|ret] rest IH]; intros g Hwf.
  - rewrite run_nil. constructor.
  - rewrite run_event. destruct (handleEvent ev g) as [g1|l] eqn:Hev.
    + apply IH. eapply handleEvent_wf; eassumption.
    + constructor.
  - rewrite run_tick. cbv zeta. rewrite tick_report by assumption.
    assert (Hrep : bounded_report
              (report_of (contribution g RIGHT LEFT - contribution g LEFT RIGHT)
                         (contribution g DOWN UP - contribution g UP DOWN))).
    { eexists. eexists. split; [reflexivity|].
      pose proof (contribution_bounds g RIGHT LEFT).
      pose proof (contribution_bounds g LEFT RIGHT).
      pose proof (contribution_bounds g DOWN UP).
      pose proof (contribution_bounds g UP DOWN). lia. }
    destruct (full_write ret); cbn [fst].
    + constructor; [exact Hrep|]. apply IH, incMoveTimes_wf, Hwf.
    + constructor; [exact Hrep|constructor].
Qed.

Lemma reports_are_bounded_witness :
  Forall bounded_report
    (fst (run [KeyboardEvent (InputEvent EV_KEY KEY_KP4 1); TimerTick sizeof_ev]
              (Globals false [true; false; false; false] [500; 0; 0; 0])))
  /\ fst (run [KeyboardEvent (InputEvent EV_KEY KEY_KP4 1); TimerTick sizeof_ev]
              (Globals false [true; false; false; false] [500; 0; 0; 0]))
     = [report_of (-1) (-10)].
Proof.
  split; [|vm_compute; reflexivity].
  apply (reports_are_bounded
           [KeyboardEvent (InputEvent EV_KEY KEY_KP4 1); TimerTick sizeof_ev]
           (Globals false [true; false; false; false] [500; 0; 0; 0])).
  split; reflexivity.
Defined.

Lemma still_tick (g : globals) :
  wf_globals g ->
  (forall i, 0 <= i < DIRECTION_NUM -> array_get (isMoving g) i = false) ->
  incMoveTimes g = g
  /\ motion_report (calcMoveSteps g (replicate (Z.to_nat DIRECTION_NUM) 0))
     = report_of 0 0.
Proof.
  intros Hwf Hoff. cells g Hwf.
  pose proof (Hoff UP ltac:(unfold UP, DIRECTION_NUM; lia)) as H0.
  pose proof (Hoff DOWN ltac:(unfold DOWN, DIRECTION_NUM; lia)) as H1.
  pose proof (Hoff LEFT ltac:(unfold LEFT, DIRECTION_NUM; lia)) as H2.
  pose proof (Hoff RIGHT ltac:(unfold RIGHT, DIRECTION_NUM; lia)) as H3.
  change (m0 = false) in H0. change (m1 = false) in H1.
  change (m2 = false) in H2. change (m3 = false) in H3. subst.
  split; reflexivity.
Qed.

(** X14. With no direction moving, a tick writes the zero report and
    leaves the state exactly as it was (the write still takes place, and
    a short write still ends the process). *)
Theorem neutral_tick (ret : Z) (g : globals) :
  wf_globals g ->
  (forall i, 0 <= i < DIRECTION_NUM -> array_get (isMoving g) i = false) ->
  moveMouse ret g = (report_of 0 0, if full_write ret then Done g else Fatal 436).
Proof.
  intros Hwf Hoff. destruct (still_tick g Hwf Hoff) as (Hinc & Hrep).
  rewrite moveMouse_unfold, Hinc, Hrep. reflexivity.
Qed.

Lemma neutral_tick_witness :
  moveMouse sizeof_ev (Globals false [false; false; false; false] [0; 0; 0; 0])
  = (report_of 0 0, Done (Globals false [false; false; false; false] [0; 0; 0; 0])).
Proof.
  apply (neutral_tick sizeof_ev
           (Globals false [false; false; false; false] [0; 0; 0; 0])).
  - split; reflexivity.
  - intros i Hi. each_direction i Hi; reflexivity.
Defined.



Lemma motion_report_cells (up down left right : Z) :
  motion_report [up; down; left; right] = report_of (right - left) (down - up).
Proof. reflexivity. Qed.

(** X16. One key held alone: when only direction [d] is moving, with
    hold count [t], the [k]-th of [n] ticks that follow writes exactly
    the step [moveStep (t + k)] on [d]'s axis, with [d]'s sign (up and
    left negative), and 0 on the other axis -- as long as the count fits
    an [int]. *)
Theorem solo_hold_reports (n : nat) (g : globals) (d : Z) :
  wf_globals g -> int_counts g -> 0 <= d < DIRECTION_NUM ->
  isMoving g = array_set (replicate (Z.to_nat DIRECTION_NUM) false) d true ->
  array_get (moveTimes g) d + Z.of_nat n <= INT_MAX ->
  fst (run (replicate n (TimerTick sizeof_ev)) g)
  = map (fun k => solo_report d (moveStep (array_get (moveTimes g) d + k)))
        (seqZ 1 (Z.of_nat n)).
Proof.
  intros Hwf Hint Hd Hsolo Hfit.
  rewrite run_ticks by assumption. cbn [fst].
  apply map_ext_in. intros k Hk.
  apply list_elem_of_In, elem_of_seqZ in Hk.
  pose proof (int_counts_cell g d Hwf Hint Hd) as Hrange.
  cells g Hwf. cbn [isMoving] in Hsolo.
  change (replicate (Z.to_nat DIRECTION_NUM) 0) with [0; 0; 0; 0].
  unfold after_ticks. cbn [isMoving moveTimes numlockOn zip_with].
  rewrite calcMoveSteps_cells.
  cbn [moveTimes] in Hrange, Hfit |- *.
  each_direction d Hd; cbn in Hsolo; injection Hsolo as -> -> -> ->;
    try change (array_get [t0; t1; t2; t3] UP) with t0 in *;
    try change (array_get [t0; t1; t2; t3] DOWN) with t1 in *;
    try change (array_get [t0; t1; t2; t3] LEFT) with t2 in *;
    try change (array_get [t0; t1; t2; t3] RIGHT) with t3 in *;
    rewrite wrap_int_small by (unfold int_range, INT_MIN, INT_MAX in *; lia);
    rewrite motion_report_cells, ?Z.sub_0_r, ?Z.sub_0_l;
    reflexivity.
Qed.

Lemma solo_hold_reports_witness :
  let g := Globals false [false; false; true; false] [0; 0; 198; 0] in
  fst (run (replicate 3 (TimerTick sizeof_ev)) g)
  = [report_of (-9) 0; report_of (-10) 0; report_of (-10) 0]
  /\ fst (run (replicate 3 (TimerTick sizeof_ev)) g)
     = map (fun k => solo_report LEFT (moveStep (array_get (moveTimes g) LEFT + k)))
           (seqZ 1 (Z.of_nat 3)).
Proof.
  cbv zeta. split; [vm_compute; reflexivity|].
  apply (solo_hold_reports 3
           (Globals false [false; false; true; false] [0; 0; 198; 0]) LEFT).
  - split; reflexivity.
  - apply int_counts_cells. unfold int_range, INT_MIN, INT_MAX. lia.
  - unfold LEFT, DIRECTION_NUM. lia.
  - reflexivity.
  - vm_compute. discriminate.
Defined.

(** ** Probing the input devices *)

Lemma fmap_seqZ_array_get {B} (f : string -> B) (l : list string) :
  (fun i => f (array_get l i)) <$> seqZ 0 (Z.of_nat (length l)) = f <$> l.
Proof.
  apply list_eq. intros i. rewrite !list_lookup_fmap.
  destruct (decide (i < length l)%nat) as [Hlt|Hge].
  - rewrite lookup_seqZ_lt by lia.
    rewrite (list_lookup_lookup_total_lt l i) by assumption.
    cbn [fmap option_fmap option_map]. unfold array_get.
    replace (Z.to_nat (0 + Z.of_nat i)) with i by lia. reflexivity.
  - rewrite lookup_seqZ_ge by lia.
    rewrite (lookup_ge_None_2 l i) by lia. reflexivity.
Qed.

Lemma getAllEventDevicePath_unfold (sys : system) :
  getAllEventDevicePath sys =
  match sys_dir sys with
  | None => Fatal 73
  | Some names =>
      match sys_versionsort sys
              (List.filter (fun d => negb (isEventDevice d =? 0)) names) with
      | [] => Fatal 73
      | selected => Done ((fun d => EVENT_DEV_PREFIX +:+ d) <$> selected)
      end
  end.
Proof.
  unfold getAllEventDevicePath, scandir. destruct (sys_dir sys) as [names|];
    [|reflexivity].
  cbv zeta.
  destruct (sys_versionsort sys _) as [|d selected] eqn:Hsel; [reflexivity|].
  unfold ENSURE.
  replace (0 <? Z.of_nat (length (d :: selected))) with true
    by (symmetry; apply Z.ltb_lt; cbn [length]; lia).
  cbn [mbind outcome_bind mret outcome_ret]. f_equal.
  apply fmap_seqZ_array_get.
Qed.

Lemma event_filter_elem (names : list string) (d : string) :
  d ∈ List.filter (fun d => negb (isEventDevice d =? 0)) names
  <-> d ∈ names /\ event_name d.
Proof.
  rewrite list_elem_of_In, filter_In, <- list_elem_of_In.
  destruct (isEventDevice_event_name d) as (H1 & H0).
  split; intros [Hin H]; (split; [assumption|]).
  - apply negb_true_iff, Z.eqb_neq in H.
    destruct (Z.eqb_spec (isEventDevice d) 1) as [E|E]; [apply H1, E|].
    exfalso. unfold isEventDevice in *.
    destruct (strncmp _ _ _ =? 0); congruence.
  - apply negb_true_iff, Z.eqb_neq. apply H1 in H. lia.
Qed.

(** X17. [getAllEventDevicePath] ends the process (line 73) when
    [scandir] fails or no name in [/dev/input/] starts with "event";
    otherwise it returns a non-empty list whose members are exactly the
    paths "/dev/input/" followed by such a name. *)
Theorem getAllEventDevicePath_result (sys : system) :
  (forall l, sys_versionsort sys l ≡ₚ l) ->
  match getAllEventDevicePath sys with
  | Fatal line =>
      line = 73
      /\ (forall names, sys_dir sys = Some names ->
            Forall (fun d => ~ event_name d) names)
  | Done paths =>
      paths <> []
      /\ exists names,
           sys_dir sys = Some names
           /\ (forall p, p ∈ paths <->
                 exists d, d ∈ names /\ event_name d /\ p = "/dev/input/" +:+ d)
  end.
Proof.
  intros Hsort. rewrite getAllEventDevicePath_unfold.
  destruct (sys_dir sys) as [names|]; [|split; [reflexivity|discriminate]].
  pose proof (Hsort (List.filter (fun d => negb (isEventDevice d =? 0)) names))
    as Hperm.
  destruct (sys_versionsort sys _) as [|d selected].
  - split; [reflexivity|]. intros names' [= <-].
    apply Forall_forall. intros x Hx Hev.
    assert (Hin : x ∈ List.filter (fun d => negb (isEventDevice d =? 0)) names)
      by (apply event_filter_elem; split; assumption).
    rewrite <- Hperm in Hin. inversion Hin.
  - split; [discriminate|]. exists names. split; [reflexivity|].
    intros p. rewrite list_elem_of_fmap. split.
    + intros (x & -> & Hx). rewrite Hperm in Hx.
      apply event_filter_elem in Hx as [Hin Hev]. exists x. auto.
    + intros (x & Hin & Hev & ->). exists x. split; [reflexivity|].
      rewrite Hperm. apply event_filter_elem. split; assumption.
Qed.

Lemma getAllEventDevicePath_result_witness :
  let sys := System (fun _ => None) (Some ["mouse0"; "event3"; "mice"; "event"])
                    (fun l => l) in
  getAllEventDevicePath sys = Done ["/dev/input/event3"; "/dev/input/event"]
  /\ match getAllEventDevicePath sys with
     | Fatal line =>
         line = 73
         /\ (forall names, sys_dir sys = Some names ->
               Forall (fun d => ~ event_name d) names)
     | Done paths =>
         paths <> []
         /\ exists names,
              sys_dir sys = Some names
              /\ (forall p, p ∈ paths <->
                    exists d, d ∈ names /\ event_name d /\ p = "/dev/input/" +:+ d)
     end.
Proof.
  cbv zeta. split; [vm_compute; reflexivity|].
  apply (getAllEventDevicePath_result
           (System (fun _ => None) (Some ["mouse0"; "event3"; "mice"; "event"])
                   (fun l => l))).
  intros l. reflexivity.
Defined.

Lemma isSupportTypeCode_iff (sys : system) (path : string) (type code : Z) :
  isSupportTypeCode sys path type code = true <->
  exists dev, sys_open sys path = Some dev
              /\ testBits type (dev_types dev) = true
              /\ testBits code (dev_codes dev type) = true.
Proof.
  unfold isSupportTypeCode, isSupportType.
  destruct (sys_open sys path) as [dev|].
  - destruct (testBits type (dev_types dev)) eqn:Ht;
      destruct (testBits code (dev_codes dev type)) eqn:Hc; cbn; split;
      try discriminate; try (intros (d & [= <-] & H1 & H2); congruence).
    intros _. exists dev. auto.
  - cbn. split; [discriminate|]. intros (d & Hd & _). discriminate Hd.
Qed.

(** X18. [isValidKeyboard] accepts a path exactly when the device opens,
    reports the [EV_KEY] event type and reports all four keypad keys
    (8, 2, 4 and 6); one missing key is enough to reject it. *)
Theorem isValidKeyboard_iff (sys : system) (path : string) :
  isValidKeyboard sys path = true <->
  exists dev, sys_open sys path = Some dev /\ keypad_device dev.
Proof.
  unfold isValidKeyboard, keypad_device, NEEDED_KEY.
  cbn [isValidKeyboard_from]. split.
  - intros H.
    destruct (isSupportTypeCode sys path EV_KEY KEY_KP8) eqn:H8; [|discriminate].
    destruct (isSupportTypeCode sys path EV_KEY KEY_KP2) eqn:H2; [|discriminate].
    destruct (isSupportTypeCode sys path EV_KEY KEY_KP4) eqn:H4; [|discriminate].
    destruct (isSupportTypeCode sys path EV_KEY KEY_KP6) eqn:H6; [|discriminate].
    apply isSupportTypeCode_iff in H8 as (dev & Hopen & Hty & Hk8).
    apply isSupportTypeCode_iff in H2 as (d2 & Ho2 & _ & Hk2).
    apply isSupportTypeCode_iff in H4 as (d4 & Ho4 & _ & Hk4).
    apply isSupportTypeCode_iff in H6 as (d6 & Ho6 & _ & Hk6).
    rewrite Hopen in Ho2, Ho4, Ho6.
    injection Ho2 as <-. injection Ho4 as <-. injection Ho6 as <-.
    exists dev. split; [assumption|]. split; [assumption|].
    repeat (constructor; [assumption|]). constructor.
  - intros (dev & Hopen & Hty & Hkeys).
    apply Forall_cons in Hkeys as [Hk8 Hkeys].
    apply Forall_cons in Hkeys as [Hk2 Hkeys].
    apply Forall_cons in Hkeys as [Hk4 Hkeys].
    apply Forall_cons in Hkeys as [Hk6 _].
    assert (Hall : forall key, testBits key (dev_codes dev EV_KEY) = true ->
              isSupportTypeCode sys path EV_KEY key = true)
      by (intros key Hkey; apply isSupportTypeCode_iff; exists dev; auto).
    rewrite !Hall by assumption. reflexivity.
Qed.

Lemma valid_keyboards_loop (sys : system) (allDevice : list string) :
  forall validDevice,
    foldl (fun validDevice path =>
             if isValidKeyboard sys path then validDevice ++ [path]
             else validDevice)
          validDevice allDevice
    = validDevice ++ List.filter (isValidKeyboard sys) allDevice.
Proof.
  induction allDevice as [|p rest IH]; intros validDevice; cbn [foldl List.filter].
  - rewrite app_nil_r. reflexivity.
  - rewrite IH. destruct (isValidKeyboard sys p); [|reflexivity].
    rewrite <- app_assoc. reflexivity.
Qed.

(** X19. [getAllValidKeyboard] returns the event devices that
    [isValidKeyboard] accepts, all of them and no other, in the order of
    the scan; every one of them opens and reports the four keypad keys.
    It ends the process only where [getAllEventDevicePath] does. *)
Theorem getAllValidKeyboard_result (sys : system) :
  match getAllEventDevicePath sys with
  | Fatal line => getAllValidKeyboard sys = Fatal line
  | Done allDevice =>
      getAllValidKeyboard sys = Done (List.filter (isValidKeyboard sys) allDevice)
      /\ (forall p, p ∈ List.filter (isValidKeyboard sys) allDevice <->
            p ∈ allDevice /\
            exists dev, sys_open sys p = Some dev /\ keypad_device dev)
  end.
Proof.
  unfold getAllValidKeyboard.
  destruct (getAllEventDevicePath sys) as [allDevice|line]; [|reflexivity].
  cbn [mbind outcome_bind mret outcome_ret]. split.
  - rewrite valid_keyboards_loop. reflexivity.
  - intros p. rewrite list_elem_of_In, filter_In, <- list_elem_of_In.
    rewrite isValidKeyboard_iff. reflexivity.
Qed.

Lemma led_device_loop (sys : system) (allDevice : list string) :
  getOneNumLockDevice_from sys allDevice =
  match find (fun p => isSupportTypeCode sys p EV_LED LED_CAPSL) allDevice with
  | Some p => p
  | None => ""
  end.
Proof.
  induction allDevice as [|p rest IH]; [reflexivity|].
  cbn [getOneNumLockDevice_from find].
  destruct (isSupportTypeCode sys p EV_LED LED_CAPSL); [reflexivity|exact IH].
Qed.

Lemma getAllEventDevicePath_paths (sys : system) (allDevice : list string) :
  getAllEventDevicePath sys = Done allDevice ->
  forall p, p ∈ allDevice -> exists d, p = EVENT_DEV_PREFIX +:+ d.
Proof.
  rewrite getAllEventDevicePath_unfold.
  destruct (sys_dir sys) as [names|]; [|discriminate].
  destruct (sys_versionsort sys _) as [|d selected]; [discriminate|].
  intros [= <-] p Hp.
  change (p ∈ (fun d => EVENT_DEV_PREFIX +:+ d) <$> (d :: selected)) in Hp.
  apply list_elem_of_fmap in Hp as (x & -> & _).
  exists x. reflexivity.
Qed.

(** X20. [queryNumlock] looks at the first event device, in scan order,
    that reports the [EV_LED] type and the CapsLock LED ([LED_CAPSL]):
    it answers false when there is none, and otherwise whether that
    device's NumLock LED is lit.  Its own [ENSURE] (line 367) never
    fires; it ends the process only where [getAllEventDevicePath]
    does. *)
Theorem queryNumlock_result (sys : system) :
  match getAllEventDevicePath sys with
  | Fatal line => queryNumlock sys = Fatal line
  | Done allDevice =>
      match find (fun p => isSupportTypeCode sys p EV_LED LED_CAPSL) allDevice with
      | None => queryNumlock sys = Done false
      | Some p =>
          exists dev, sys_open sys p = Some dev
                      /\ queryNumlock sys = Done (testBits LED_NUML (dev_leds dev))
      end
  end.
Proof.
  pose proof (getAllEventDevicePath_paths sys) as Hpaths.
  unfold queryNumlock, getOneNumLockDevice.
  destruct (getAllEventDevicePath sys) as [allDevice|line]; [|reflexivity].
  specialize (Hpaths allDevice eq_refl).
  cbn [mbind outcome_bind mret outcome_ret]. rewrite led_device_loop.
  destruct (find _ allDevice) as [p|] eqn:Hfind; [|reflexivity].
  apply find_some in Hfind as [Hin Hled].
  apply isSupportTypeCode_iff in Hled as (dev & Hopen & _ & _).
  exists dev. split; [assumption|].
  apply list_elem_of_In, Hpaths in Hin as (d & ->).
  change (String.eqb (EVENT_DEV_PREFIX +:+ d) "") with false.
  rewrite Hopen. destruct (testBits LED_NUML (dev_leds dev)); reflexivity.
Qed.

(** ** What holds of a tick under any interleaving *)

Lemma exec_total {A} (p : Interleaved.tick A) :
  forall schedule g, exists g' a, Interleaved.exec p schedule g = Done (g', a).
Proof.
  induction p as [a | i k IH | i k IH | i k IH]; intros schedule g;
    cbn [Interleaved.exec].
  - eexists. eexists. reflexivity.
  - destruct (dispatch_total (hd [] schedule) g) as [g1 ->]. apply IH.
  - destruct (dispatch_total (hd [] schedule) g) as [g1 ->]. apply IH.
  - destruct (dispatch_total (hd [] schedule) g) as [g1 ->]. apply IH.
Qed.

Lemma exec_results {A} (P : A -> Prop) (p : Interleaved.tick A) :
  forall schedule g g' a,
    results P p -> Interleaved.exec p schedule g = Done (g', a) -> P a.
Proof.
  induction p as [a0 | i k IH | i k IH | i k IH];
    intros schedule g g' a Hres Hexec; cbn [Interleaved.exec results] in *.
  - injection Hexec as _ <-. assumption.
  - destruct (Interleaved.dispatch (hd [] schedule) g) as [g1|l]; [|discriminate].
    eapply IH; [apply Hres | exact Hexec].
  - destruct (Interleaved.dispatch (hd [] schedule) g) as [g1|l]; [|discriminate].
    eapply IH; [apply Hres | exact Hexec].
  - destruct (Interleaved.dispatch (hd [] schedule) g) as [g1|l]; [|discriminate].
    eapply IH; [apply Hres | exact Hexec].
Qed.

Lemma results_weaken {A} (P Q : A -> Prop) (p : Interleaved.tick A) :
  (forall a, P a -> Q a) -> results P p -> results Q p.
Proof.
  intros HPQ. induction p as [a | i k IH | i k IH | i k IH]; cbn [results];
    intros Hp.
  - apply HPQ, Hp.
  - intros moving. apply IH, Hp.
  - intros t. apply IH, Hp.
  - apply IH, Hp.
Qed.

Lemma results_bind {A B} (Q : B -> Prop) (p : Interleaved.tick A)
    (f : A -> Interleaved.tick B) :
  results (fun a => results Q (f a)) p -> results Q (Interleaved.bind p f).
Proof.
  induction p as [a | i k IH | i k IH | i k IH]; cbn [results Interleaved.bind];
    intros Hres.
  - assumption.
  - intros moving. apply IH, Hres.
  - intros t. apply IH, Hres.
  - apply IH, Hres.
Qed.

Lemma results_for_each {S} (P : S -> Prop)
    (body : Z -> S -> Interleaved.tick S) (indices : list Z) :
  (forall i s, P s -> results P (body i s)) ->
  forall s, P s -> results P (Interleaved.for_each body indices s).
Proof.
  intros Hbody. induction indices as [|i rest IH]; intros s Hs;
    cbn [Interleaved.for_each results]; [assumption|].
  apply results_bind.
  apply (results_weaken P); [|apply Hbody, Hs].
  intros a Ha. apply IH, Ha.
Qed.

Lemma steps_in_range_set (steps : list Z) (i s : Z) :
  steps_in_range steps -> 0 <= s <= MAX_STEP ->
  steps_in_range (array_set steps i s).
Proof.
  intros [Hlen Hall] Hs. unfold array_set. split.
  - rewrite length_insert. assumption.
  - apply Forall_insert; assumption.
Qed.

Lemma steps_in_range_report (steps : list Z) :
  steps_in_range steps -> bounded_report (motion_report steps).
Proof.
  intros [Hlen Hall].
  destruct steps as [|up [|down [|left [|right [|? ?]]]]]; try discriminate Hlen.
  apply Forall_cons in Hall as [Hu Hall]. apply Forall_cons in Hall as [Hd Hall].
  apply Forall_cons in Hall as [Hl Hall]. apply Forall_cons in Hall as [Hr _].
  exists (right - left), (down - up). split; [reflexivity|]. lia.
Qed.

Lemma moveMouse_thread_results :
  results steps_in_range Interleaved.moveMouse_thread.
Proof.
  assert (Hzero : 0 <= 0 <= MAX_STEP) by (unfold MAX_STEP; lia).
  assert (Hstep : forall t, 0 <= moveStep t <= MAX_STEP).
  { intros t. pose proof (moveStep_bounds t). unfold MIN_STEP in *. lia. }
  assert (Hcancel : forall steps i j, steps_in_range steps ->
            steps_in_range (array_set (array_set steps i 0) j 0))
    by (intros; repeat apply steps_in_range_set; assumption).
  assert (Hinc : results (fun _ : unit => True) Interleaved.incMoveTimes_thread).
  { apply results_for_each; [|exact I].
    intros i s _ moving. destruct moving; exact I. }
  assert (Hcalc : results steps_in_range
            (Interleaved.calcMoveSteps_thread
               (replicate (Z.to_nat DIRECTION_NUM) 0))).
  { unfold Interleaved.calcMoveSteps_thread, mbind, Interleaved.tick_bind.
    apply results_bind.
    apply (results_weaken steps_in_range).
    - intros steps Hsteps. apply results_bind. cbn [results].
      intros up. destruct up; cbn [results].
      + intros down. destruct down; cbn [results];
          intros left; destruct left; cbn [results]; auto;
          intros right; destruct right; cbn [results]; auto.
      + intros left; destruct left; cbn [results]; auto;
          intros right; destruct right; cbn [results]; auto.
    - apply (results_for_each steps_in_range).
      + intros i steps Hsteps moving. destruct moving; cbn [results].
        * intros t. apply steps_in_range_set; auto.
        * assumption.
      + split; [reflexivity|]. repeat (constructor; [exact Hzero|]). constructor. }
  unfold Interleaved.moveMouse_thread, mbind, Interleaved.tick_bind.
  apply results_bind.
  apply (results_weaken (fun _ : unit => True)); [|exact Hinc].
  intros _ _. exact Hcalc.
Qed.

(** X21. Whatever records the dispatch loop handles in the middle of a
    tick, and wherever between the tick's reads it handles them, the tick
    completes and the report it hands to [write] has both deltas between
    [-MAX_STEP] and [MAX_STEP]. *)
Theorem interleaved_tick_is_bounded
    (schedule : list (list input_event)) (g : globals) :
  exists g' steps,
    Interleaved.exec Interleaved.moveMouse_thread schedule g = Done (g', steps)
    /\ steps_in_range steps
    /\ bounded_report (motion_report steps).
Proof.
  destruct (exec_total Interleaved.moveMouse_thread schedule g)
    as (g' & steps & Hexec).
  exists g', steps. split; [exact Hexec|].
  assert (Hsteps : steps_in_range steps)
    by (eapply exec_results; [apply moveMouse_thread_results | exact Hexec]).
  split; [exact Hsteps | apply steps_in_range_report, Hsteps].
Qed.
